(** * savvy: sparse vectors, CMF markers and the CMF writer

    A shallow embedding of
    - [savvy::compressed_vector<T>]   (include/savvy/compressed_vector.hpp),
    - [vc::cmf::marker], its dense [const_iterator] and [vc::cmf::writer]
      (include/cmf_reader.hpp),
    - [vc::cvcf::marker::calculate_allele_frequency] (src/cvcf_reader.cpp),
    together with the properties the specification states about them.

    Conventions.  [std::size_t], [std::uint64_t] and [std::uint8_t] values
    are numbers in [N]; where the source does arithmetic on them the
    wrap-around modulo [2^64] is written out.  A [std::vector] is a [list];
    an iterator into a vector is an index into that list. *)

From Stdlib Require Import NArith ZArith Lia List String Strings.Byte.
From Stdlib Require Import Floats.PrimFloat Floats.SpecFloat Floats.FloatOps.
From stdpp Require Import base list sorting.
Import ListNotations.

Local Open Scope N_scope.

(** [2^64]: the number of values of a [std::uint64_t] / [std::size_t]. *)
Definition u64_modulus : N := 18446744073709551616.

(** * Standard-library containers and algorithms *)

Module Std.

(** [std::lower_bound(first, last, value)] on a vector of [size_t], as the
    standard libraries implement it: a binary search that halves the
    candidate range [first, first + len) until it is empty.  Each turn
    makes [len] smaller, so the search is over after [len] turns at most
    and [fuel >= len] never cuts it short.  [*middle] always lies inside
    the vector when the range does. *)
Fixpoint lower_bound_loop (fuel : nat) (l : list N) (first len : nat)
         (value : N) : nat :=
  match fuel with
  | O => first
  | S fuel' =>
      if (len =? 0)%nat then first
      else
        let half := Nat.div2 len in
        let middle := (first + half)%nat in
        match l !! middle with
        | Some x =>
            if x <? value
            then lower_bound_loop fuel' l (S middle) (len - half - 1) value
            else lower_bound_loop fuel' l first half value
        | None => first
        end
  end.

Definition lower_bound (l : list N) (value : N) : nat :=
  lower_bound_loop (length l) l 0 (length l) value.

(** What the C++ standard specifies [std::lower_bound] to return on a
    range partitioned with respect to [element < value]: the position of
    the first element for which [element < value] is false, or [last]
    when there is none. *)
Fixpoint partition_point (l : list N) (value : N) : nat :=
  match l with
  | [] => 0%nat
  | x :: l' => if x <? value then S (partition_point l' value) else 0%nat
  end.

(** [v.insert(v.begin() + k, x)]. *)
Definition vec_insert {A} (k : nat) (x : A) (l : list A) : list A :=
  take k l ++ x :: drop k l.

(** [v.emplace_back(x)]. *)
Definition emplace_back {A} (x : A) (l : list A) : list A := l ++ [x].

(** [v.erase(v.begin() + k, v.end())]. *)
Definition erase_from {A} (k : nat) (l : list A) : list A := take k l.

(** [v.resize(n, x)] is stdpp's [resize n x v]: the first [n] elements,
    padded with copies of [x] when [v] is shorter. *)

End Std.

(** * [savvy::compressed_vector<T>] *)

Section CompressedVector.

(** The element type, its value-initialised element [T()], and the
    operators [+=] and [*] that [dot] uses. *)
Context {T : Type} `{EqDecision T}.
Variable zero : T.
Variables add mul : T -> T -> T.

Record compressed_vector : Type := mk_cv {
  values_ : list T;
  offsets_ : list N;
  size_ : N
}.

(** [size()] and [non_zero_size()]. *)
Definition size (v : compressed_vector) : N := size_ v.
Definition non_zero_size (v : compressed_vector) : nat := length (values_ v).

(** The stored (offset, value) pairs, in storage order. *)
Definition entries (v : compressed_vector) : list (N * T) :=
  zip (offsets_ v) (values_ v).

(** ** [assign(val_it, val_end)]: assignment from a dense range *)

(** The loop body at dense position [idx = it - val_it].  The test
    [if ( *it )] converts the element to [bool]: it is true unless the
    element is zero, the value-initialised [T()] of an arithmetic type. *)
Fixpoint assign_dense_loop (input : list T) (idx : N)
         (vals : list T) (offs : list N) : list T * list N :=
  match input with
  | [] => (vals, offs)
  | x :: rest =>
      if decide (x = zero)
      then assign_dense_loop rest (idx + 1) vals offs
      else assign_dense_loop rest (idx + 1)
             (Std.emplace_back x vals) (Std.emplace_back idx offs)
  end.

Definition assign_dense (v : compressed_vector) (input : list T)
  : compressed_vector :=
  let r := assign_dense_loop input 0 [] [] in
  {| values_ := fst r; offsets_ := snd r; size_ := N.of_nat (length input) |}.

(** ** [assign(val_it, val_end, off_it, sz)]: assignment from sparse input

    [sp_sz = val_end - val_it] values and as many offsets are copied;
    [off_it] has to point at [sp_sz] readable offsets at least. *)
Definition assign_sparse (v : compressed_vector)
           (vals : list T) (offs : list N) (sz : N) : compressed_vector :=
  let sp_sz := length vals in
  {| values_ := take sp_sz vals; offsets_ := take sp_sz offs; size_ := sz |}.

(** ** [operator[](pos)], mutable

    The returned reference is the index of the slot in [values_]. *)
Definition subscript_search (v : compressed_vector) (pos : N)
  : nat * compressed_vector :=
  let it := Std.lower_bound (offsets_ v) pos in
  match offsets_ v !! it with
  | Some o =>
      if decide (o = pos) then (it, v)
      else (it, {| values_ := Std.vec_insert it zero (values_ v);
                   offsets_ := Std.vec_insert it pos (offsets_ v);
                   size_ := size_ v |})
  | None =>
      (it, {| values_ := Std.vec_insert it zero (values_ v);
              offsets_ := Std.vec_insert it pos (offsets_ v);
              size_ := size_ v |})
  end.

Definition subscript (v : compressed_vector) (pos : N)
  : nat * compressed_vector :=
  match last (offsets_ v) with
  | Some back =>
      if back <? pos
      then (length (values_ v),
            {| values_ := Std.emplace_back zero (values_ v);
               offsets_ := Std.emplace_back pos (offsets_ v);
               size_ := size_ v |})
      else subscript_search v pos
  | None => subscript_search v pos
  end.

(** ** [operator[](pos) const]

    A [const] member: the call returns the value and the vector it was
    called on. *)
Definition get (v : compressed_vector) (pos : N) : T :=
  let it := Std.lower_bound (offsets_ v) pos in
  match offsets_ v !! it with
  | Some o => if decide (o = pos) then nth it (values_ v) zero else zero
  | None => zero
  end.

Definition subscript_const (v : compressed_vector) (pos : N)
  : T * compressed_vector := (get v pos, v).

(** ** [resize(sz, val)] *)

(** [for (i = from; i < sz; ++i) offsets_[i] = i], with [cnt] iterations
    left. *)
Fixpoint fill_offsets (cnt : nat) (i : N) (offs : list N) : list N :=
  match cnt with
  | O => offs
  | S cnt' => fill_offsets cnt' (i + 1) (<[N.to_nat i := i]> offs)
  end.

Definition resize (v : compressed_vector) (sz : N) (val : T)
  : compressed_vector :=
  if sz =? 0 then
    {| values_ := []; offsets_ := []; size_ := sz |}
  else if sz <? size_ v then
    let it := Std.lower_bound (offsets_ v) sz in
    let offs := Std.erase_from it (offsets_ v) in
    {| values_ := list.resize (length offs) zero (values_ v);
       offsets_ := offs;
       size_ := sz |}
  else if decide (val = zero) then
    {| values_ := values_ v; offsets_ := offsets_ v; size_ := sz |}
  else
    let vals := list.resize (N.to_nat sz) val (values_ v) in
    let offs := list.resize (N.to_nat sz) 0 (offsets_ v) in
    {| values_ := vals;
       offsets_ := fill_offsets (N.to_nat (sz - size_ v)) (size_ v) offs;
       size_ := sz |}.

(** ** [clear()] *)
Definition clear (v : compressed_vector) : compressed_vector :=
  resize v 0 zero.

(** ** [dot(other, ret)], [dot(other)] and [operator*]

    [it] and [jt] are indices into the two [offsets_] vectors.  Each
    turn of the [while] loop advances at least one of them, so
    [|offsets_| + |other.offsets_|] turns always suffice; [None] would
    mean the loop was cut short. *)
Fixpoint dot_loop (fuel : nat) (a b : compressed_vector)
         (it jt : nat) (ret : T) : option T :=
  match offsets_ a !! it, offsets_ b !! jt with
  | Some oi, Some oj =>
      match fuel with
      | O => None
      | S fuel' =>
          if oi <? oj then dot_loop fuel' a b (S it) jt ret
          else if oj <? oi then dot_loop fuel' a b it (S jt) ret
          else dot_loop fuel' a b (S it) (S jt)
                 (add ret (mul (nth it (values_ a) zero)
                               (nth jt (values_ b) zero)))
      end
  | _, _ => Some ret
  end.

Definition dot_from (a b : compressed_vector) (ret : T) : option T :=
  dot_loop (length (offsets_ a) + length (offsets_ b)) a b 0 0 ret.

Definition dot (a b : compressed_vector) : option T := dot_from a b zero.
Definition op_mul (a b : compressed_vector) : option T := dot_from a b zero.

(** ** What [dot] is specified to compute

    These two definitions follow the words of the specification, not the
    code.  [dot_reference]: the sum, in ascending offset order, over the
    offsets stored in both vectors of the product of the two values read
    at that offset.  [dense_inner_product]: the inner product of the two
    vectors read densely, index by index, through [get]. *)
Definition product_at (a b : compressed_vector) (ret : T) (o : N) : T :=
  add ret (mul (get a o) (get b o)).

Definition common_offsets (a b : compressed_vector) : list N :=
  filter (fun o => o ∈ offsets_ b) (offsets_ a).

Definition dot_reference (a b : compressed_vector) (ret : T) : T :=
  fold_left (product_at a b) (common_offsets a b) ret.

Definition indices (n : N) : list N := map N.of_nat (seq 0 (N.to_nat n)).

Definition dense_inner_product (a b : compressed_vector) : T :=
  fold_left (product_at a b) (indices (size_ a)) zero.

(** ** The class invariant *)

Definition ascending (l : list N) : Prop := StronglySorted N.lt l.

Definition invariant (v : compressed_vector) : Prop :=
  ascending (offsets_ v)
  /\ Forall (fun o => o < size_ v) (offsets_ v)
  /\ length (offsets_ v) = length (values_ v).

End CompressedVector.

Arguments compressed_vector : clear implicits.

(** * [savvy::compressed_vector<T>]: construction, iteration, [dot_slow] *)

Section CompressedVectorRest.

Context {T : Type} `{EqDecision T}.
Variable zero : T.
Variables add mul : T -> T -> T.

(** ** [compressed_vector(sz)]

    The two vectors are default-constructed, hence empty; [size_] has no
    initialiser, so [resize(sz)] compares [sz] with whatever value
    [size_] holds at that moment ([indeterminate]). *)
Definition construct (indeterminate sz : N) : compressed_vector T :=
  resize zero {| values_ := []; offsets_ := []; size_ := indeterminate |}
         sz zero.

(** ** Assignment through the reference that [operator[]] returns:
    the statement [v[pos] = x]. *)
Definition assign_at (v : compressed_vector T) (pos : N) (x : T)
  : compressed_vector T :=
  let r := subscript zero v pos in
  {| values_ := <[fst r := x]> (values_ (snd r));
     offsets_ := offsets_ (snd r);
     size_ := size_ (snd r) |}.

(** ** [iterator] and [const_iterator]

    A cursor is its distance [cur_ - beg_] from the start of [values_].
    [offset()] reads [offsets_] and [operator*] reads [values_] at that
    distance; a read outside the vector has no value here. *)
Definition cv_begin (v : compressed_vector T) : nat := 0.
Definition cv_end (v : compressed_vector T) : nat := length (values_ v).

Definition it_offset (v : compressed_vector T) (cur : nat) : option N :=
  offsets_ v !! cur.

Definition it_deref (v : compressed_vector T) (cur : nat) : option T :=
  values_ v !! cur.

(** [for (it = first; it != last; ++it) out.emplace_back(it.offset(), *it)],
    cut off after [fuel] turns. *)
Fixpoint traverse (fuel : nat) (v : compressed_vector T) (it last : nat)
  : option (list (N * T)) :=
  if decide (it = last) then Some []
  else
    match fuel with
    | O => None
    | S fuel' =>
        match it_offset v it, it_deref v it with
        | Some o, Some x =>
            match traverse fuel' v (S it) last with
            | Some rest => Some ((o, x) :: rest)
            | None => None
            end
        | _, _ => None
        end
    end.

(** ** [dot_slow(other, ret)] *)

(** [std::lower_bound(jt, v.end(), value)]: the search starts at position
    [jt]. *)
Definition lower_bound_from (l : list N) (jt : nat) (value : N) : nat :=
  Std.lower_bound_loop (length l - jt) l jt (length l - jt) value.

(** The [for] loop of either branch.  [outer] is the vector whose offsets
    [it] walks, [inner] the one that is searched; [cnt] counts the
    elements of [outer] from [it] on, so it runs out exactly when [it]
    reaches the end.  The first branch evaluates the product and drops it
    ([accumulate = false]); the second adds it to [ret]. *)
Fixpoint dot_slow_loop (cnt : nat) (accumulate : bool)
         (outer inner : compressed_vector T) (it jt : nat) (ret : T) : T :=
  match cnt with
  | O => ret
  | S cnt' =>
      match offsets_ outer !! it with
      | None => ret
      | Some oi =>
          if decide (jt = length (offsets_ inner)) then ret
          else
            let jt' := lower_bound_from (offsets_ inner) jt oi in
            match offsets_ inner !! jt' with
            | Some oj =>
                if decide (oj = oi)
                then dot_slow_loop cnt' accumulate outer inner (S it) (S jt')
                       (if accumulate
                        then add ret (mul (nth it (values_ outer) zero)
                                          (nth jt' (values_ inner) zero))
                        else ret)
                else dot_slow_loop cnt' accumulate outer inner (S it) jt' ret
            | None => dot_slow_loop cnt' accumulate outer inner (S it) jt' ret
            end
      end
  end.

Definition dot_slow (a b : compressed_vector T) (ret : T) : T :=
  if size a <? size b
  then dot_slow_loop (length (offsets_ a)) false a b 0 0 ret
  else dot_slow_loop (length (offsets_ b)) true b a 0 0 ret.

End CompressedVectorRest.

(** * Output streams *)

Module Stream.

(** A [std::ostream] over an in-memory sink: the bytes the sink has
    received so far and the three [iostate] flags. The sink itself
    accepts every byte. *)
Record ostream : Type := mk_ostream {
  sink : list byte;
  badbit : bool;
  failbit : bool;
  eofbit : bool
}.

(** [os.good()]: no flag is set. *)
Definition good (os : ostream) : bool :=
  negb (badbit os || failbit os || eofbit os).

(** [os.setstate(std::ios::failbit)]. *)
Definition setstate_failbit (os : ostream) : ostream :=
  {| sink := sink os; badbit := badbit os; failbit := true;
     eofbit := eofbit os |}.

(** [os.write(data, n)]: an unformatted output function; its sentry lets
    the characters through only when the stream is good. *)
Definition write (os : ostream) (data : list byte) : ostream :=
  if good os
  then {| sink := sink os ++ data; badbit := badbit os;
          failbit := failbit os; eofbit := eofbit os |}
  else os.

(** Assigning the characters [data] through a
    [std::ostreambuf_iterator<char>]: they go to the stream buffer
    directly, whatever the flags of the stream are. *)
Definition put (os : ostream) (data : list byte) : ostream :=
  {| sink := sink os ++ data; badbit := badbit os;
     failbit := failbit os; eofbit := eofbit os |}.

(** A freshly opened stream. *)
Definition empty : ostream :=
  {| sink := []; badbit := false; failbit := false; eofbit := false |}.

End Stream.

(** * Unsigned varints *)

Module Varint.

Definition byte_of (n : N) : byte := default Byte.x00 (Byte.of_N n).

(** Modelled from the spec: [varint_encode] of varint.hpp, which is not
    among the sources.  Section 4.A with [P = 0]: seven value bits per
    byte, least significant group first, the top bit of a byte set when
    more bytes follow; a [u64] takes ten bytes at most. *)
Fixpoint encode_groups (more : nat) (value : N) : list byte :=
  match more with
  | O => [byte_of (value mod 128)]
  | S more' =>
      if value / 128 =? 0 then [byte_of (value mod 128)]
      else byte_of (value mod 128 + 128) :: encode_groups more' (value / 128)
  end.

Definition varint_encode (value : N) : list byte := encode_groups 9 value.

End Varint.

(** * [vc::cmf]: markers and the writer *)

Module Cmf.

(** Modelled from the spec: the enumeration [allele_status] of
    allele_status.hpp, which is not among the sources; section 3 names
    its three values. *)
Inductive allele_status : Type := is_missing | has_ref | has_alt.

#[global] Instance allele_status_eq_dec : EqDecision allele_status.
Proof. solve_decision. Defined.

Record sparse_vector_allele : Type := mk_sva {
  offset : N;
  status : allele_status
}.

Record marker : Type := mk_marker {
  non_zero_haplotypes_ : list sparse_vector_allele;
  ref_ : string;
  alt_ : string;
  position_ : N;
  haplotype_count_ : N
}.

Definition pos (m : marker) : N := position_ m.
Definition ref (m : marker) : string := ref_ m.
Definition alt (m : marker) : string := alt_ m.
Definition haplotype_count (m : marker) : N := haplotype_count_ m.

(** ** The dense constructor

    The [while] loop over [gt_beg .. gt_end), at dense offset [off]. *)
Fixpoint dense_loop (gt : list allele_status) (off : N)
         (nz : list sparse_vector_allele) : list sparse_vector_allele :=
  match gt with
  | [] => nz
  | x :: rest =>
      let nz' := if decide (x = has_ref) then nz
                 else Std.emplace_back (mk_sva off x) nz in
      dense_loop rest ((off + 1) mod u64_modulus) nz'
  end.

Definition marker_dense (position : N) (ref alt : string)
           (gt : list allele_status) : marker :=
  {| non_zero_haplotypes_ := dense_loop gt 0 [];
     ref_ := ref; alt_ := alt; position_ := position;
     haplotype_count_ := N.of_nat (length gt) mod u64_modulus |}.

(** ** The sparse constructor

    Both errors are thrown as [std::range_error]; the value carried here
    is the message. *)
Inductive exn : Type := range_error (what : string).

Fixpoint sparse_loop (gt : list sparse_vector_allele)
         (nz : list sparse_vector_allele)
  : exn + list sparse_vector_allele :=
  match gt with
  | [] => inr nz
  | e :: rest =>
      if decide (status e = has_ref)
      then inl (range_error "FOOBAR")
      else sparse_loop rest (Std.emplace_back e nz)
  end.

Definition marker_sparse (position : N) (ref alt : string)
           (gt : list sparse_vector_allele) (total_haplotype_count : N)
  : exn + marker :=
  match sparse_loop gt [] with
  | inl e => inl e
  | inr nz =>
      if total_haplotype_count <? N.of_nat (length nz)
      then inl (range_error "FOOBAR2")
      else inr {| non_zero_haplotypes_ := nz;
                  ref_ := ref; alt_ := alt; position_ := position;
                  haplotype_count_ := total_haplotype_count |}
  end.

(** ** [marker::const_iterator], the dense cursor

    [ptr_] and [ptr_end_] are positions in the vector [vec] the cursor
    was created over. *)
Record const_iterator : Type := mk_it {
  ptr_ : nat;
  ptr_end_ : nat;
  i_ : N
}.

(** The condition [ptr_ != ptr_end_ && i_ == ptr_->offset], with the
    entry [*ptr_] when it holds. *)
Definition at_entry (vec : list sparse_vector_allele) (it : const_iterator)
  : option sparse_vector_allele :=
  if decide (ptr_ it = ptr_end_ it) then None
  else match vec !! ptr_ it with
       | Some e => if decide (i_ it = offset e) then Some e else None
       | None => None
       end.

Definition increment (vec : list sparse_vector_allele) (it : const_iterator)
  : const_iterator :=
  {| ptr_ := match at_entry vec it with
             | Some _ => S (ptr_ it)
             | None => ptr_ it
             end;
     ptr_end_ := ptr_end_ it;
     i_ := (i_ it + 1) mod u64_modulus |}.

(** [operator*]. *)
Definition deref (vec : list sparse_vector_allele) (it : const_iterator)
  : allele_status :=
  match at_entry vec it with
  | Some e => if decide (status e = is_missing) then is_missing else has_alt
  | None => has_ref
  end.

(** [operator!=]. *)
Definition it_neq (a b : const_iterator) : bool := negb (i_ a =? i_ b).

(** Modelled from the spec: [marker::begin] and [marker::end], declared
    in cmf_reader.hpp and defined in a file that is not among the
    sources.  Section 9: the dense cursor walks [[0, haplotype_count)]
    and consults the sparse list by two-pointer advance. *)
Definition begin_ (m : marker) : const_iterator :=
  {| ptr_ := 0; ptr_end_ := length (non_zero_haplotypes_ m); i_ := 0 |}.

Definition end_ (m : marker) : const_iterator :=
  {| ptr_ := length (non_zero_haplotypes_ m);
     ptr_end_ := length (non_zero_haplotypes_ m);
     i_ := haplotype_count_ m |}.

(** [for (it = first; it != last; ++it) out.push_back( *it )], cut off
    after [fuel] turns ([None]). *)
Fixpoint collect (fuel : nat) (vec : list sparse_vector_allele)
         (it last : const_iterator) : option (list allele_status) :=
  if it_neq it last then
    match fuel with
    | O => None
    | S fuel' =>
        match collect fuel' vec (increment vec it) last with
        | Some rest => Some (deref vec it :: rest)
        | None => None
        end
    end
  else Some [].

(** Dense iteration over a marker, from [begin()] to [end()]. *)
Definition dense_view (fuel : nat) (m : marker)
  : option (list allele_status) :=
  collect fuel (non_zero_haplotypes_ m) (begin_ m) (end_ m).

(** What the dense cursor reads at dense offset [i] of a marker whose
    entries are in ascending offset order: [operator*] turns the status of
    the entry stored at [i] into [is_missing] or [has_alt], and reads
    [has_ref] where nothing is stored. *)
Definition dense_status (nz : list sparse_vector_allele) (i : N)
  : allele_status :=
  match list_find (fun e => offset e = i) nz with
  | Some (_, e) =>
      if decide (status e = is_missing) then is_missing else has_alt
  | None => has_ref
  end.

(** The [n] dense offsets from [off] on. *)
Definition dense_offsets (off : N) (n : nat) : list N :=
  map (fun k => off + N.of_nat k) (seq 0 n).

(** ** [writer] *)

Section Writer.

(** [varint_encode(n, out_it)] of varint.hpp: the bytes it assigns
    through the output iterator. *)
Variable varint_encode : N -> list byte.

(** [marker::write(os, m)], defined in a file that is not among the
    sources: its effect on the stream. *)
Variable marker_write : Stream.ostream -> marker -> Stream.ostream.

Record writer : Type := mk_writer {
  output_stream_ : Stream.ostream;
  sample_size_ : N;
  ploidy_level_ : N
}.

(** [std::string version_string("cvcf\x00\x01\x00\x00", 8)]. *)
Definition version_string : list byte :=
  [Byte.x63; Byte.x76; Byte.x63; Byte.x66;
   Byte.x00; Byte.x01; Byte.x00; Byte.x00].

Definition string_size (s : string) : N := N.of_nat (String.length s).

(** One turn of the loop over the sample names. *)
Definition write_sample (os : Stream.ostream) (name : string)
  : Stream.ostream :=
  Stream.write (Stream.put os (varint_encode (string_size name)))
               (list_byte_of_string name).

Definition writer_new (os : Stream.ostream) (chromosome : string)
           (ploidy : N) (samples : list string) : writer :=
  let sample_size := N.of_nat (length samples) mod u64_modulus in
  let os := Stream.write os version_string in
  let os := Stream.put os (varint_encode (string_size chromosome)) in
  let os := Stream.put os (list_byte_of_string chromosome) in
  let os := Stream.put os (varint_encode ploidy) in
  let os := Stream.put os (varint_encode sample_size) in
  let os := fold_left write_sample samples os in
  let os := Stream.put os (varint_encode 0) in
  {| output_stream_ := os;
     sample_size_ := sample_size;
     ploidy_level_ := ploidy |}.

(** [operator<<(m)]. *)
Definition op_shl (w : writer) (m : marker) : writer :=
  if Stream.good (output_stream_ w) then
    if decide (haplotype_count m
               = (sample_size_ w * ploidy_level_ w) mod u64_modulus)
    then {| output_stream_ := marker_write (output_stream_ w) m;
            sample_size_ := sample_size_ w;
            ploidy_level_ := ploidy_level_ w |}
    else {| output_stream_ := Stream.setstate_failbit (output_stream_ w);
            sample_size_ := sample_size_ w;
            ploidy_level_ := ploidy_level_ w |}
  else w.

(** The bytes the output sink has received. *)
Definition output (w : writer) : list byte :=
  Stream.sink (output_stream_ w).

(** The header as the specification lays it out (this definition follows
    its words, not the code): magic and version, the length-prefixed
    chromosome, the ploidy, the sample count and the length-prefixed
    sample names, the metadata-field count and the length-prefixed
    metadata descriptors. *)
Definition length_prefixed (s : string) : list byte :=
  varint_encode (string_size s) ++ list_byte_of_string s.

Definition header_layout (chromosome : string) (ploidy : N)
           (samples metadata : list string) : list byte :=
  version_string
  ++ length_prefixed chromosome
  ++ varint_encode ploidy
  ++ varint_encode (N.of_nat (length samples))
  ++ concat (map length_prefixed samples)
  ++ varint_encode (N.of_nat (length metadata))
  ++ concat (map length_prefixed metadata).

End Writer.

End Cmf.

(** * [vc::cvcf::marker]: allele frequency *)

Module Cvcf.

(** [static_cast<double>(n)] for a [std::uint64_t]: the binary64 number
    nearest to [n]. *)
Definition double_of_u64 (n : N) : float :=
  SF2Prim (binary_normalize 53 1024 (Z.of_N n) 0 false).

(** Modelled from the spec: the class [vc::cvcf::marker] is declared in
    cvcf_reader.hpp, which is not among the sources.  The fields are the
    ones [calculate_allele_frequency] reads: the stored non-reference
    entries, each flagged as alternate allele ([is_allele]) or missing
    call, and the two factors of the haplotype count. *)
Record sparse_allele : Type := mk_sa {
  offset : N;
  is_allele : bool
}.

Record marker : Type := mk_marker {
  non_zero_haplotypes_ : list sparse_allele;
  sample_count_ : N;
  ploidy_level_ : N
}.

Definition haplotype_count (m : marker) : N :=
  (sample_count_ m * ploidy_level_ m) mod u64_modulus.

(** The [for] loop: [++allele_cnt] or [--total_haplotypes], both on
    [std::uint64_t]. *)
Fixpoint count_loop (nz : list sparse_allele) (allele_cnt total : N)
  : N * N :=
  match nz with
  | [] => (allele_cnt, total)
  | e :: rest =>
      if is_allele e
      then count_loop rest ((allele_cnt + 1) mod u64_modulus) total
      else count_loop rest allele_cnt
             ((total + (u64_modulus - 1)) mod u64_modulus)
  end.

Definition calculate_allele_frequency (m : marker) : float :=
  let '(allele_cnt, total_haplotypes) :=
    count_loop (non_zero_haplotypes_ m) 0 (haplotype_count m) in
  PrimFloat.div (double_of_u64 allele_cnt) (double_of_u64 total_haplotypes).

(** [A] and [M] of the specification. *)
Definition alt_count (m : marker) : N :=
  N.of_nat (length (filter (fun e => is_allele e = true)
                           (non_zero_haplotypes_ m))).

Definition missing_count (m : marker) : N :=
  N.of_nat (length (filter (fun e => is_allele e = false)
                           (non_zero_haplotypes_ m))).

End Cvcf.


(** * [vc::vcf::reader::input_iterator] *)

Module Vcf.

(** [2^32]: the number of values of the [std::uint32_t] index [i_]. *)
Definition u32_modulus : N := 4294967296.

Section InputIterator.

(** The reader and the block it fills stand for the htslib-backed classes;
    [marker_count] is [block::marker_count()], the number of markers the
    block holds, and [read_next_block] is [reader::read_next_block]:
    whether a block was read, and the reader and the buffer afterwards. *)
Variables reader block : Type.
Variable marker_count : block -> N.
Variable read_next_block : reader -> block -> bool * reader * block.

(** [file_reader_] is a pointer ([None] is [nullptr], the end iterator's
    value); [buffer_] points at the caller's block. *)
Record input_iterator : Type := mk_input_iterator {
  file_reader_ : option reader;
  buffer_ : block;
  i_ : N
}.

(** [increment()].  Reading the next block through a null [file_reader_]
    has no defined result ([None]). *)
Definition increment (it : input_iterator) : option input_iterator :=
  if i_ it <? marker_count (buffer_ it) then
    Some {| file_reader_ := file_reader_ it;
            buffer_ := buffer_ it;
            i_ := (i_ it + 1) mod u32_modulus |}
  else
    match file_reader_ it with
    | Some r =>
        let '(ok, r', b') := read_next_block r (buffer_ it) in
        Some {| file_reader_ := if ok then Some r' else None;
                buffer_ := b';
                i_ := 0 |}
    | None => None
    end.

(** [input_iterator(file_reader, buffer)]: reads the first block and
    ignores whether that succeeded. *)
Definition input_iterator_new (r : reader) (b : block) : input_iterator :=
  let '(_, r', b') := read_next_block r b in
  {| file_reader_ := Some r'; buffer_ := b'; i_ := 0 |}.

(** [k] times [++it]. *)
Fixpoint advance (k : nat) (it : input_iterator) : option input_iterator :=
  match k with
  | O => Some it
  | S k' =>
      match advance k' it with
      | Some it' => increment it'
      | None => None
      end
  end.

(** [operator!=] against the end iterator, whose [file_reader_] is null. *)
Definition not_at_end (it : input_iterator) : bool :=
  match file_reader_ it with
  | Some _ => true
  | None => false
  end.

End InputIterator.

Arguments mk_input_iterator {reader block}.
Arguments file_reader_ {reader block}.
Arguments buffer_ {reader block}.
Arguments i_ {reader block}.
Arguments increment {reader block}.
Arguments input_iterator_new {reader block}.
Arguments advance {reader block}.
Arguments not_at_end {reader block}.

End Vcf.

(** * Sample data

    [compressed_vector<int>] values, with the mathematical integers for
    [int]. *)

Module Sample.

(** Logical size 3, one stored entry: value 5 at offset 1. *)
Definition cv_one : compressed_vector Z :=
  {| values_ := [5%Z]; offsets_ := [1]; size_ := 3 |}.

(** Logical size 3, entries 2 at offset 1 and 4 at offset 2. *)
Definition cv_two : compressed_vector Z :=
  {| values_ := [2%Z; 4%Z]; offsets_ := [1; 2]; size_ := 3 |}.

(** Logical size 2, one stored entry: value 3 at offset 1. *)
Definition cv_small : compressed_vector Z :=
  {| values_ := [3%Z]; offsets_ := [1]; size_ := 2 |}.

(** Logical size 3 with every index stored. *)
Definition cv_full : compressed_vector Z :=
  {| values_ := [5; 6; 7]%Z; offsets_ := [0; 1; 2]; size_ := 3 |}.

(** [cv_one] after [v[5] = 9] and [cv_two] after [w[5] = 2]: both keep
    the logical size 3 and store an entry at offset 5. *)
Definition cv_one_beyond : compressed_vector Z :=
  {| values_ := [5; 9]%Z; offsets_ := [1; 5]; size_ := 3 |}.

Definition cv_two_beyond : compressed_vector Z :=
  {| values_ := [2; 4; 2]%Z; offsets_ := [1; 2; 5]; size_ := 3 |}.

(** [compressed_vector<double>] values of logical size 3: one stores
    infinity at offset 1, the other stores nothing. *)
Definition cv_infinity : compressed_vector float :=
  {| values_ := [PrimFloat.infinity]; offsets_ := [1]; size_ := 3 |}.

Definition cv_nothing : compressed_vector float :=
  {| values_ := []; offsets_ := []; size_ := 3 |}.

(** Scenario S3: the dense calls [REF, ALT, REF, REF, MISSING, REF]. *)
Definition calls_s3 : list Cmf.allele_status :=
  [Cmf.has_ref; Cmf.has_alt; Cmf.has_ref; Cmf.has_ref; Cmf.is_missing;
   Cmf.has_ref].

(** Scenario S4: the sparse entries [(0, ALT), (3, MISSING), (7, ALT)]. *)
Definition entries_s4 : list Cmf.sparse_vector_allele :=
  [Cmf.mk_sva 0 Cmf.has_alt; Cmf.mk_sva 3 Cmf.is_missing;
   Cmf.mk_sva 7 Cmf.has_alt].

(** Scenario S6: a marker with three haplotypes, and a writer over a
    fresh stream for chromosome "20", ploidy 2 and the samples "s1",
    "s2". *)
Definition marker_three : Cmf.marker :=
  Cmf.marker_dense 1 "A" "G" [Cmf.has_alt; Cmf.has_ref; Cmf.has_ref].

Definition writer_s6 : Cmf.writer :=
  Cmf.writer_new Varint.varint_encode Stream.empty "20" 2 ["s1"; "s2"]%string.

(** A stand-in for [marker::write] that emits the varint of the position
    and nothing else; the properties of [operator<<] hold for every
    serializer. *)
Definition write_position_only (os : Stream.ostream) (m : Cmf.marker)
  : Stream.ostream :=
  Stream.put os (Varint.varint_encode (Cmf.pos m)).

(** A [cvcf] marker with the entries of scenario S3: three samples of
    ploidy 2, an alternate allele at offset 1, a missing call at offset 4. *)
Definition cvcf_s3 : Cvcf.marker :=
  {| Cvcf.non_zero_haplotypes_ := [Cvcf.mk_sa 1 true; Cvcf.mk_sa 4 false];
     Cvcf.sample_count_ := 3;
     Cvcf.ploidy_level_ := 2 |}.

(** The entries of [cvcf_s3] in the opposite order and at other
    offsets. *)
Definition cvcf_s3_moved : Cvcf.marker :=
  {| Cvcf.non_zero_haplotypes_ := [Cvcf.mk_sa 5 false; Cvcf.mk_sa 0 true];
     Cvcf.sample_count_ := 2;
     Cvcf.ploidy_level_ := 3 |}.

(** Scenario S4's marker: the entries [entries_s4] among eight
    haplotypes. *)
Definition marker_s4 : Cmf.marker :=
  {| Cmf.non_zero_haplotypes_ := entries_s4;
     Cmf.ref_ := "A"; Cmf.alt_ := "G"; Cmf.position_ := 12345;
     Cmf.haplotype_count_ := 8 |}.

(** A marker as the sparse constructor accepts it although its entries
    are out of order and one lies beyond the three haplotypes. *)
Definition marker_unordered : Cmf.marker :=
  {| Cmf.non_zero_haplotypes_ :=
       [Cmf.mk_sva 5 Cmf.has_alt; Cmf.mk_sva 1 Cmf.is_missing];
     Cmf.ref_ := "A"; Cmf.alt_ := "G"; Cmf.position_ := 7;
     Cmf.haplotype_count_ := 3 |}.

(** A marker with four haplotypes, as the writer of scenario S6 expects. *)
Definition marker_four : Cmf.marker :=
  Cmf.marker_dense 2 "C" "T"
    [Cmf.has_ref; Cmf.is_missing; Cmf.has_ref; Cmf.has_alt].

(** A stream whose fail bit is set before anything was written. *)
Definition failed_stream : Stream.ostream :=
  Stream.setstate_failbit Stream.empty.

(** A block reader with nothing left to read, over blocks that are just
    their marker count. *)
Definition no_more_blocks (r : unit) (b : N) : bool * unit * N :=
  (false, r, b).

(** One sample of ploidy 1 whose only call is missing. *)
Definition cvcf_all_missing : Cvcf.marker :=
  {| Cvcf.non_zero_haplotypes_ := [Cvcf.mk_sa 0 false];
     Cvcf.sample_count_ := 1;
     Cvcf.ploidy_level_ := 1 |}.

End Sample.

(** * Properties of [std::lower_bound] on ascending vectors *)

Section LowerBound.

Implicit Types (l : list N) (x o : N) (k : nat).

Lemma ascending_cons y l :
  ascending (y :: l) <-> Forall (fun o => y < o) l /\ ascending l.
Proof. unfold ascending. apply StronglySorted_cons. Qed.

Lemma ascending_lookup_lt l i j a b :
  ascending l -> l !! i = Some a -> l !! j = Some b ->
  (i < j)%nat -> a < b.
Proof.
  intros Hs. revert i j a b.
  induction Hs as [|y l Hs IH Hall]; intros i j a b Hi Hj Hlt.
  - rewrite lookup_nil in Hi. discriminate.
  - destruct j as [|j]; [lia|]. simpl in Hj.
    destruct i as [|i]; simpl in Hi.
    + injection Hi as <-.
      rewrite Forall_forall in Hall. apply Hall.
      eapply list_elem_of_lookup_2. exact Hj.
    + eapply IH; eauto. lia.
Qed.

(** ** The partition point *)

Lemma partition_point_le l x : (Std.partition_point l x <= length l)%nat.
Proof.
  induction l as [|y l IH]; simpl; [lia|].
  destruct (y <? x); simpl; lia.
Qed.

Lemma partition_point_before l x :
  Forall (fun o => o < x) (take (Std.partition_point l x) l).
Proof.
  induction l as [|y l IH]; simpl; [constructor|].
  destruct (N.ltb_spec y x); simpl; [|constructor].
  constructor; assumption.
Qed.

Lemma partition_point_after l x :
  ascending l -> Forall (fun o => x <= o) (drop (Std.partition_point l x) l).
Proof.
  induction l as [|y l IH]; simpl; intros Hs; [constructor|].
  apply ascending_cons in Hs as [Hall Hs].
  destruct (N.ltb_spec y x); simpl; [auto|].
  constructor; [assumption|].
  eapply Forall_impl; [exact Hall|]. simpl. intros; lia.
Qed.

Lemma partition_point_found l x k :
  ascending l -> l !! k = Some x -> Std.partition_point l x = k.
Proof.
  intros Hs. revert k.
  induction l as [|y l IH]; simpl; intros k Hk.
  - rewrite lookup_nil in Hk. discriminate.
  - apply ascending_cons in Hs as [Hall Hs].
    destruct k as [|k]; simpl in Hk.
    + injection Hk as ->. rewrite N.ltb_irrefl. reflexivity.
    + assert (y < x) as Hlt.
      { rewrite Forall_forall in Hall. apply Hall.
        eapply list_elem_of_lookup_2. exact Hk. }
      apply N.ltb_lt in Hlt. rewrite Hlt. f_equal. auto.
Qed.

Lemma partition_point_all_below l x :
  Forall (fun o => o < x) l -> Std.partition_point l x = length l.
Proof.
  induction 1 as [|y l Hy _ IH]; simpl; [reflexivity|].
  apply N.ltb_lt in Hy. rewrite Hy, IH. reflexivity.
Qed.

(** ** The binary search finds the partition point *)

Lemma lower_bound_loop_correct l x :
  ascending l ->
  forall fuel first len,
    (len <= fuel)%nat ->
    (first <= Std.partition_point l x <= first + len)%nat ->
    (first + len <= length l)%nat ->
    Std.lower_bound_loop fuel l first len x = Std.partition_point l x.
Proof.
  intros Hs.
  pose proof (partition_point_before l x) as Hlo.
  pose proof (partition_point_after l x Hs) as Hhi.
  set (pp := Std.partition_point l x) in *.
  induction fuel as [|fuel IH]; intros first len Hfuel Hpp Hlen; simpl.
  - lia.
  - destruct (Nat.eqb_spec len 0) as [->|Hne]; [lia|].
    assert (Nat.div2 len < len)%nat as Hhalf by (apply Nat.lt_div2; lia).
    set (half := Nat.div2 len) in *. clearbody half.
    destruct (l !! (first + half)%nat) as [y|] eqn:Hy.
    2:{ apply lookup_ge_None in Hy. lia. }
    destruct (N.ltb_spec y x) as [Hlt|Hge].
    + apply IH; [lia| |lia].
      destruct (decide (pp <= first + half)%nat) as [Hle|]; [|lia].
      exfalso.
      assert (drop pp l !! (first + half - pp)%nat = Some y) as Hd.
      { rewrite lookup_drop. rewrite <- Hy. f_equal. lia. }
      pose proof (Forall_lookup_1 _ _ _ _ Hhi Hd) as Hbound.
      simpl in Hbound. lia.
    + apply IH; [lia| |lia].
      destruct (decide (first + half < pp)%nat) as [Hlt|]; [|lia].
      exfalso.
      assert (take pp l !! (first + half)%nat = Some y) as Ht.
      { rewrite lookup_take_lt by assumption. assumption. }
      pose proof (Forall_lookup_1 _ _ _ _ Hlo Ht) as Hbound.
      simpl in Hbound. lia.
Qed.

Lemma lower_bound_partition_point l x :
  ascending l -> Std.lower_bound l x = Std.partition_point l x.
Proof.
  intros Hs. unfold Std.lower_bound.
  pose proof (partition_point_le l x).
  apply lower_bound_loop_correct; [assumption|lia..].
Qed.

(** ** [std::lower_bound] on an ascending vector *)

Lemma lower_bound_le l x :
  ascending l -> (Std.lower_bound l x <= length l)%nat.
Proof.
  intros Hs. rewrite lower_bound_partition_point by assumption.
  apply partition_point_le.
Qed.

(** Everything in front of the returned position is below [x]. *)
Lemma lower_bound_before l x :
  ascending l -> Forall (fun o => o < x) (take (Std.lower_bound l x) l).
Proof.
  intros Hs. rewrite lower_bound_partition_point by assumption.
  apply partition_point_before.
Qed.

(** Nothing from the returned position on is below [x]. *)
Lemma lower_bound_after l x :
  ascending l -> Forall (fun o => x <= o) (drop (Std.lower_bound l x) l).
Proof.
  intros Hs. rewrite lower_bound_partition_point by assumption.
  apply partition_point_after. assumption.
Qed.

(** A stored value is found at its own position. *)
Lemma lower_bound_found l x k :
  ascending l -> l !! k = Some x -> Std.lower_bound l x = k.
Proof.
  intros Hs Hk. rewrite lower_bound_partition_point by assumption.
  apply partition_point_found; assumption.
Qed.

(** A value above all stored ones is searched to the end. *)
Lemma lower_bound_all_below l x :
  ascending l -> Forall (fun o => o < x) l ->
  Std.lower_bound l x = length l.
Proof.
  intros Hs Hall. rewrite lower_bound_partition_point by assumption.
  apply partition_point_all_below. assumption.
Qed.

End LowerBound.

(** * Properties of [compressed_vector] *)

Section CompressedVectorFacts.

Context {T : Type} `{EqDecision T}.
Variable zero : T.
Variables add mul : T -> T -> T.

Implicit Types (v a b : compressed_vector T) (pos i o : N) (k : nat).

Lemma ascending_take l k : ascending l -> ascending (take k l).
Proof.
  intros Hs. rewrite <- (take_drop k l) in Hs.
  unfold ascending in *. eapply StronglySorted_app_1_l. exact Hs.
Qed.

Lemma ascending_drop l k : ascending l -> ascending (drop k l).
Proof.
  intros Hs. rewrite <- (take_drop k l) in Hs.
  unfold ascending in *. eapply StronglySorted_app_1_r. exact Hs.
Qed.

Lemma elem_of_drop_inv {A} (x : A) (l : list A) k : x ∈ drop k l -> x ∈ l.
Proof.
  intros Hx. rewrite <- (take_drop k l). apply elem_of_app. auto.
Qed.

(** The last element of an ascending vector bounds all of them. *)
Lemma ascending_last l back :
  ascending l -> last l = Some back -> Forall (fun o => o <= back) l.
Proof.
  intros Hs Hlast. rewrite last_lookup in Hlast.
  apply Forall_lookup. intros j x Hj.
  pose proof (lookup_lt_Some _ _ _ Hj) as Hlen.
  destruct (decide (j = pred (length l))) as [->|Hne].
  - rewrite Hlast in Hj. injection Hj as ->. lia.
  - apply N.lt_le_incl.
    eapply (ascending_lookup_lt l j (pred (length l))); eauto. lia.
Qed.

Lemma vec_insert_end {A} (x : A) (l : list A) :
  Std.vec_insert (length l) x l = l ++ [x].
Proof.
  unfold Std.vec_insert. rewrite take_ge, drop_ge by lia. reflexivity.
Qed.

(** Inserting [x] at its lower bound keeps the vector ascending. *)
Lemma ascending_insert l x :
  ascending l -> x ∉ l ->
  ascending (Std.vec_insert (Std.lower_bound l x) x l).
Proof.
  intros Hs Hx. unfold Std.vec_insert, ascending.
  pose proof (lower_bound_before l x Hs) as Hlo.
  pose proof (lower_bound_after l x Hs) as Hhi.
  assert (Forall (fun o => x < o) (drop (Std.lower_bound l x) l)) as Hhi'.
  { rewrite Forall_forall in Hhi. apply Forall_forall.
    intros o Ho. specialize (Hhi o Ho).
    assert (o <> x); [|lia].
    intros ->. apply Hx. eapply elem_of_drop_inv. exact Ho. }
  apply StronglySorted_app. split; [|split].
  - intros c d Hc Hd.
    rewrite Forall_forall in Hlo. specialize (Hlo c Hc).
    apply elem_of_cons in Hd as [->|Hd]; [assumption|].
    rewrite Forall_forall in Hhi'. specialize (Hhi' d Hd). lia.
  - apply ascending_take. assumption.
  - apply StronglySorted_cons. split; [assumption|].
    apply ascending_drop. assumption.
Qed.

(** ** Const element access *)

Lemma get_stored v i k x :
  ascending (offsets_ v) ->
  offsets_ v !! k = Some i -> values_ v !! k = Some x ->
  get zero v i = x.
Proof.
  intros Hs Hk Hx. unfold get.
  rewrite (lower_bound_found _ _ _ Hs Hk), Hk.
  destruct (decide (i = i)); [|congruence].
  apply nth_lookup_Some. assumption.
Qed.

Lemma get_absent v i : i ∉ offsets_ v -> get zero v i = zero.
Proof.
  intros Hi. unfold get.
  destruct (offsets_ v !! Std.lower_bound (offsets_ v) i) as [o|] eqn:Ho;
    [|reflexivity].
  destruct (decide (o = i)) as [->|]; [|reflexivity].
  exfalso. apply Hi. eapply list_elem_of_lookup_2. exact Ho.
Qed.

(** C8.  On a vector with ascending offsets and as many values as
    offsets, the const element access at index [i] returns [values[k]]
    when [offsets[k] = i], returns the default value [T()] when no stored
    offset equals [i], and leaves the vector as it was. *)
Theorem subscript_const_correct v i :
  ascending (offsets_ v) ->
  length (offsets_ v) = length (values_ v) ->
  (forall k, offsets_ v !! k = Some i ->
             values_ v !! k = Some (fst (subscript_const zero v i)))
  /\ (i ∉ offsets_ v -> fst (subscript_const zero v i) = zero)
  /\ snd (subscript_const zero v i) = v.
Proof.
  intros Hs Hlen. simpl. split; [|split].
  - intros k Hk.
    destruct (values_ v !! k) as [x|] eqn:Hx.
    + f_equal. symmetry. eapply get_stored; eauto.
    + apply lookup_ge_None in Hx. apply lookup_lt_Some in Hk. lia.
  - apply get_absent.
  - reflexivity.
Qed.

(** ** Mutable element access *)

(** The appending fast path gives what the search path would give. *)
Lemma subscript_is_search v pos :
  ascending (offsets_ v) ->
  length (offsets_ v) = length (values_ v) ->
  subscript zero v pos = subscript_search zero v pos.
Proof.
  intros Hs Hlen. unfold subscript.
  destruct (last (offsets_ v)) as [back|] eqn:Hlast; [|reflexivity].
  destruct (N.ltb_spec back pos) as [Hlt|]; [|reflexivity].
  assert (Forall (fun o => o < pos) (offsets_ v)) as Hall.
  { eapply Forall_impl; [eapply ascending_last; eauto|].
    simpl. intros; lia. }
  unfold subscript_search.
  rewrite (lower_bound_all_below _ _ Hs Hall).
  rewrite (lookup_ge_None_2 (offsets_ v)) by lia.
  rewrite vec_insert_end. rewrite Hlen at 1 2. rewrite vec_insert_end.
  reflexivity.
Qed.

Lemma entries_insert v k pos x :
  length (offsets_ v) = length (values_ v) ->
  zip (Std.vec_insert k pos (offsets_ v)) (Std.vec_insert k x (values_ v))
  = Std.vec_insert k (pos, x) (entries v).
Proof.
  intros Hlen. unfold Std.vec_insert, entries.
  rewrite zip_with_app by (rewrite !length_take; lia).
  simpl. rewrite zip_with_take, zip_with_drop. reflexivity.
Qed.

(** What the mutable access does, case by case. *)
Lemma subscript_cases v i :
  ascending (offsets_ v) ->
  length (offsets_ v) = length (values_ v) ->
  let it := Std.lower_bound (offsets_ v) i in
  (i ∈ offsets_ v /\ subscript zero v i = (it, v))
  \/ ((i ∉ offsets_ v)
      /\ subscript zero v i
         = (it, {| values_ := Std.vec_insert it zero (values_ v);
                   offsets_ := Std.vec_insert it i (offsets_ v);
                   size_ := size_ v |})).
Proof.
  intros Hs Hlen it. rewrite (subscript_is_search v i Hs Hlen).
  unfold subscript_search. fold it.
  destruct (decide (i ∈ offsets_ v)) as [Hi|Hi].
  - left. split; [assumption|].
    apply list_elem_of_lookup_1 in Hi as [j Hj].
    pose proof (lower_bound_found _ _ _ Hs Hj) as Hfound.
    fold it in Hfound. subst j. rewrite Hj.
    destruct (decide (i = i)); [reflexivity|congruence].
  - right. split; [assumption|].
    destruct (offsets_ v !! it) as [o|] eqn:Ho; [|reflexivity].
    destruct (decide (o = i)) as [->|]; [|reflexivity].
    exfalso. apply Hi. eapply list_elem_of_lookup_2. exact Ho.
Qed.

Lemma length_vec_insert {A} k (x : A) (l : list A) :
  (k <= length l)%nat -> length (Std.vec_insert k x l) = S (length l).
Proof.
  intros Hk. unfold Std.vec_insert.
  rewrite length_app, length_take. simpl. rewrite length_drop. lia.
Qed.

Lemma lookup_vec_insert {A} k (x : A) (l : list A) :
  (k <= length l)%nat -> Std.vec_insert k x l !! k = Some x.
Proof.
  intros Hk. apply list_lookup_middle. rewrite length_take. lia.
Qed.

(** C10.  The mutable element access is defined for every index [i].
    It never changes the logical size and the slot it returns is the one
    of offset [i].  When [i] is stored already the vector is unchanged;
    otherwise the entry [(i, T())] is inserted at the returned slot, all
    other entries keep their order and values, and the offsets stay
    ascending; when [i] is beyond the last stored offset the slot is the
    new last one.  The index is not compared with the logical size: with
    [i >= size] the call stores an entry whose offset is [>= size]. *)
Theorem subscript_mutable_correct v i :
  ascending (offsets_ v) ->
  length (offsets_ v) = length (values_ v) ->
  let slot := fst (subscript zero v i) in
  let v' := snd (subscript zero v i) in
  size_ v' = size_ v
  /\ offsets_ v' !! slot = Some i
  /\ (i ∈ offsets_ v -> v' = v)
  /\ (i ∉ offsets_ v ->
      entries v' = Std.vec_insert slot (i, zero) (entries v)
      /\ values_ v' !! slot = Some zero
      /\ ascending (offsets_ v'))
  /\ (forall back, last (offsets_ v) = Some back -> back < i ->
                   slot = length (offsets_ v))
  /\ (size_ v <= i ->
      exists o, offsets_ v' !! slot = Some o /\ size_ v' <= o).
Proof.
  intros Hs Hlen slot v'.
  pose proof (lower_bound_le (offsets_ v) i Hs) as Hle.
  assert (size_ v' = size_ v /\ offsets_ v' !! slot = Some i) as [Hsz Hslot].
  { subst slot v'.
    destruct (subscript_cases v i Hs Hlen) as [[Hi ->]|[Hi ->]]; simpl.
    - split; [reflexivity|].
      apply list_elem_of_lookup_1 in Hi as [j Hj].
      rewrite (lower_bound_found _ _ _ Hs Hj). assumption.
    - split; [reflexivity|]. apply lookup_vec_insert. assumption. }
  split; [assumption|]. split; [assumption|]. split; [|split; [|split]].
  - intros Hi. subst v'.
    destruct (subscript_cases v i Hs Hlen) as [[_ ->]|[Hni _]];
      [reflexivity|contradiction].
  - intros Hni. subst slot v'.
    destruct (subscript_cases v i Hs Hlen) as [[Hi _]|[_ ->]];
      [contradiction|]. simpl. split; [|split].
    + unfold entries at 1. simpl. apply entries_insert. assumption.
    + apply lookup_vec_insert. lia.
    + apply ascending_insert; assumption.
  - intros back Hlast Hlt. subst slot. unfold subscript.
    rewrite Hlast. apply N.ltb_lt in Hlt. rewrite Hlt. simpl. lia.
  - intros Hge. exists i. split; [assumption|]. lia.
Qed.

(** ** The invariant under the mutating operations *)

Lemma assign_dense_loop_spec input : forall idx vals offs,
  exists vs os,
    assign_dense_loop zero input idx vals offs = (vals ++ vs, offs ++ os)
    /\ length os = length vs
    /\ ascending os
    /\ Forall (fun o => idx <= o < idx + N.of_nat (length input)) os.
Proof.
  induction input as [|x rest IH]; intros idx vals offs; simpl.
  - exists [], []. rewrite !app_nil_r.
    repeat split; constructor.
  - destruct (decide (x = zero)) as [_|_].
    + destruct (IH (idx + 1) vals offs) as (vs & os & -> & Hl & Hs & Hb).
      exists vs, os. repeat split; try assumption.
      eapply Forall_impl; [exact Hb|]. simpl. intros; lia.
    + destruct (IH (idx + 1) (Std.emplace_back x vals)
                   (Std.emplace_back idx offs))
        as (vs & os & -> & Hl & Hs & Hb).
      exists (x :: vs), (idx :: os). unfold Std.emplace_back.
      rewrite <- !app_assoc. simpl. repeat split.
      * f_equal. assumption.
      * apply ascending_cons. split; [|assumption].
        eapply Forall_impl; [exact Hb|]. simpl. intros; lia.
      * constructor; [lia|].
        eapply Forall_impl; [exact Hb|]. simpl. intros; lia.
Qed.

Lemma assign_dense_invariant v input : invariant (assign_dense zero v input).
Proof.
  unfold assign_dense, invariant.
  destruct (assign_dense_loop_spec input 0 [] [])
    as (vs & os & -> & Hl & Hs & Hb). simpl.
  repeat split; try assumption.
  eapply Forall_impl; [exact Hb|]. simpl. intros; lia.
Qed.

Lemma assign_sparse_invariant v vals offs sz :
  ascending offs -> Forall (fun o => o < sz) offs ->
  length offs = length vals ->
  invariant (assign_sparse v vals offs sz).
Proof.
  intros Hs Hb Hl. unfold assign_sparse, invariant. simpl.
  rewrite !take_ge by lia. auto.
Qed.

Lemma subscript_invariant v pos :
  invariant v -> pos < size_ v -> invariant (snd (subscript zero v pos)).
Proof.
  intros (Hs & Hb & Hl) Hpos.
  pose proof (lower_bound_le (offsets_ v) pos Hs) as Hle.
  destruct (subscript_cases v pos Hs Hl) as [[_ ->]|[Hni ->]]; simpl.
  - repeat split; assumption.
  - unfold invariant. simpl. split; [|split].
    + apply ascending_insert; assumption.
    + unfold Std.vec_insert. apply Forall_app. split.
      * apply Forall_take. assumption.
      * constructor; [assumption|]. apply Forall_drop. assumption.
    + rewrite !length_vec_insert by lia. lia.
Qed.

Lemma resize_invariant v sz val :
  invariant v -> sz = 0 \/ sz < size_ v \/ val = zero ->
  invariant (resize zero v sz val).
Proof.
  intros (Hs & Hb & Hl) Hcase. unfold resize.
  destruct (N.eqb_spec sz 0) as [Hz|Hnz].
  { unfold invariant. simpl. repeat split; constructor. }
  destruct (N.ltb_spec sz (size_ v)) as [Hlt|Hge].
  { unfold invariant, Std.erase_from. simpl. split; [|split].
    - apply ascending_take. assumption.
    - apply lower_bound_before. assumption.
    - rewrite length_resize. reflexivity. }
  destruct (decide (val = zero)) as [_|Hval];
    [|destruct Hcase as [?|[?|?]]; [lia|lia|contradiction]].
  unfold invariant. simpl. repeat split; try assumption.
  eapply Forall_impl; [exact Hb|]. simpl. intros; lia.
Qed.

Lemma clear_invariant v : invariant (clear zero v).
Proof.
  unfold clear, resize; simpl. unfold invariant; simpl.
  repeat split; constructor.
Qed.

(** C3, as the code has it.  On a vector satisfying the invariant
    (offsets strictly ascending, every offset below the logical size, as
    many offsets as values) each of these yields a vector satisfying it
    again: assignment from a dense range; assignment from sparse input
    whose offsets are ascending, below the new size and as many as the
    values; the mutable element access at an index below the logical
    size; [resize(n, fill)] when [n = 0], [n < size] or [fill = T()];
    and [clear]. *)
Theorem invariant_preserved v :
  invariant v ->
  (forall input, invariant (assign_dense zero v input))
  /\ (forall vals offs sz,
        ascending offs -> Forall (fun o => o < sz) offs ->
        length offs = length vals ->
        invariant (assign_sparse v vals offs sz))
  /\ (forall pos, pos < size_ v -> invariant (snd (subscript zero v pos)))
  /\ (forall sz val,
        sz = 0 \/ sz < size_ v \/ val = zero ->
        invariant (resize zero v sz val))
  /\ invariant (clear zero v).
Proof.
  intros Hinv. split; [|split; [|split; [|split]]].
  - apply assign_dense_invariant.
  - apply assign_sparse_invariant.
  - intros pos Hpos. apply subscript_invariant; assumption.
  - intros sz val Hcase. apply resize_invariant; assumption.
  - apply clear_invariant.
Qed.

(** ** What [resize] does where it keeps the invariant *)

Lemma filter_all {A} (P : A -> Prop) `{!forall x, Decision (P x)} l :
  Forall P l -> filter P l = l.
Proof.
  induction 1 as [|x l Hx _ IH]; [reflexivity|].
  rewrite filter_cons_True by assumption. f_equal. assumption.
Qed.

Lemma filter_none {A} (P : A -> Prop) `{!forall x, Decision (P x)} l :
  Forall (fun x => ~ P x) l -> filter P l = [].
Proof.
  induction 1 as [|x l Hx _ IH]; [reflexivity|].
  rewrite filter_cons_False by assumption. assumption.
Qed.

Lemma filter_agree {A} (P Q : A -> Prop)
      `{!forall x, Decision (P x)} `{!forall x, Decision (Q x)} l :
  Forall (fun x => P x <-> Q x) l -> filter P l = filter Q l.
Proof.
  induction 1 as [|x l Hx _ IH]; [reflexivity|].
  destruct (decide (P x)) as [Hp|Hp].
  - rewrite !filter_cons_True by tauto. f_equal. assumption.
  - rewrite !filter_cons_False by tauto. assumption.
Qed.

Lemma Forall_entries_fst (P : N -> Prop) (offs : list N) (vals : list T) :
  Forall P offs -> Forall (fun e => P (fst e)) (zip offs vals).
Proof.
  intros Hall. apply Forall_lookup. intros j [o x] Hj.
  apply lookup_zip_with_Some in Hj as (o' & x' & [= <- <-] & Ho & _).
  simpl. eapply Forall_lookup_1; eauto.
Qed.

(** Shrinking to a positive length drops the entries at offsets [>= sz],
    and only those. *)
Lemma resize_shrink v sz val :
  invariant v -> sz <> 0 -> sz < size_ v ->
  entries (resize zero v sz val)
  = filter (fun e => fst e < sz) (entries v)
  /\ size_ (resize zero v sz val) = sz.
Proof.
  intros (Hs & Hb & Hl) Hnz Hlt. unfold resize.
  destruct (N.eqb_spec sz 0) as [|_]; [contradiction|].
  destruct (N.ltb_spec sz (size_ v)) as [_|]; [|lia].
  split; [|reflexivity]. unfold entries, Std.erase_from. simpl.
  set (it := Std.lower_bound (offsets_ v) sz).
  pose proof (lower_bound_le (offsets_ v) sz Hs) as Hle. fold it in Hle.
  rewrite length_take_le by assumption.
  rewrite resize_le by lia. rewrite <- zip_with_take.
  rewrite <- (take_drop it (zip (offsets_ v) (values_ v))) at 2.
  rewrite filter_app, filter_all, filter_none.
  - rewrite app_nil_r. reflexivity.
  - rewrite zip_with_drop.
    eapply Forall_impl;
      [apply (Forall_entries_fst (fun o => sz <= o)),
             (lower_bound_after _ sz Hs)|].
    simpl. intros; lia.
  - rewrite zip_with_take.
    apply (Forall_entries_fst (fun o => o < sz)), lower_bound_before.
    assumption.
Qed.

(** Growing, or keeping the length, with the default fill value changes
    the logical size only; and [resize(0, _)] empties the vector. *)
Lemma resize_default_fill v sz :
  size_ v <= sz -> sz <> 0 ->
  resize zero v sz zero
  = {| values_ := values_ v; offsets_ := offsets_ v; size_ := sz |}.
Proof.
  intros Hge Hnz. unfold resize.
  destruct (N.eqb_spec sz 0) as [|_]; [contradiction|].
  destruct (N.ltb_spec sz (size_ v)) as [|_]; [lia|].
  destruct (decide (zero = zero)); [reflexivity|congruence].
Qed.

Lemma resize_to_zero v val :
  resize zero v 0 val = {| values_ := []; offsets_ := []; size_ := 0 |}.
Proof. reflexivity. Qed.

Lemma length_fill_offsets cnt : forall i offs,
  length (fill_offsets cnt i offs) = length offs.
Proof.
  induction cnt as [|cnt IH]; intros i offs; simpl; [reflexivity|].
  rewrite IH. apply length_insert.
Qed.

(** Growing, or keeping the length, with another fill value leaves [sz]
    stored entries behind, however few were stored before. *)
Lemma resize_fill_stores v sz val :
  size_ v <= sz -> sz <> 0 -> val <> zero ->
  length (values_ (resize zero v sz val)) = N.to_nat sz
  /\ length (offsets_ (resize zero v sz val)) = N.to_nat sz.
Proof.
  intros Hge Hnz Hval. unfold resize.
  destruct (N.eqb_spec sz 0) as [|_]; [contradiction|].
  destruct (N.ltb_spec sz (size_ v)) as [|_]; [lia|].
  destruct (decide (val = zero)) as [|_]; [contradiction|]. simpl.
  rewrite length_fill_offsets, !length_resize. auto.
Qed.

Lemma resize_size v sz val : size_ (resize zero v sz val) = sz.
Proof.
  unfold resize.
  destruct (sz =? 0); [reflexivity|].
  destruct (sz <? size_ v); [reflexivity|].
  destruct (decide (val = zero)); reflexivity.
Qed.

(** ** The inner product *)

Lemma get_at_index v k o :
  ascending (offsets_ v) ->
  length (offsets_ v) = length (values_ v) ->
  offsets_ v !! k = Some o ->
  nth k (values_ v) zero = get zero v o.
Proof.
  intros Hs Hl Hk.
  destruct (values_ v !! k) as [x|] eqn:Hx.
  - rewrite (get_stored v o k x Hs Hk Hx).
    apply nth_lookup_Some. assumption.
  - apply lookup_ge_None in Hx. apply lookup_lt_Some in Hk. lia.
Qed.

(** The suffix of an ascending vector that starts at a stored position:
    its head, and a tail that lies above the head. *)
Lemma ascending_suffix l k o :
  ascending l -> l !! k = Some o ->
  drop k l = o :: drop (S k) l
  /\ Forall (fun x => o < x) (drop (S k) l).
Proof.
  intros Hs Hk. pose proof (drop_S _ _ _ Hk) as Hd.
  split; [assumption|].
  pose proof (ascending_drop l k Hs) as Hs'. rewrite Hd in Hs'.
  apply ascending_cons in Hs' as [Hall _]. assumption.
Qed.

(** The merge loop, started at positions [it] and [jt] with enough fuel,
    adds up the products at the offsets that the two remaining suffixes
    share. *)
Lemma dot_loop_correct a b :
  ascending (offsets_ a) -> ascending (offsets_ b) ->
  length (offsets_ a) = length (values_ a) ->
  length (offsets_ b) = length (values_ b) ->
  forall fuel it jt ret,
    (length (offsets_ a) - it + (length (offsets_ b) - jt) <= fuel)%nat ->
    dot_loop zero add mul fuel a b it jt ret
    = Some (fold_left (product_at zero add mul a b)
              (filter (fun o => o ∈ drop jt (offsets_ b))
                      (drop it (offsets_ a)))
              ret).
Proof.
  intros Hsa Hsb Hla Hlb.
  induction fuel as [|fuel IH]; intros it jt ret Hfuel.
  - simpl.
    destruct (offsets_ a !! it) as [oi|] eqn:Hi.
    + destruct (offsets_ b !! jt) as [oj|] eqn:Hj.
      * apply lookup_lt_Some in Hi. lia.
      * rewrite (drop_ge (offsets_ b)) by (apply lookup_ge_None; assumption).
        rewrite filter_none; [reflexivity|].
        apply Forall_forall. intros x _ Hx. inversion Hx.
    + rewrite (drop_ge (offsets_ a)) by (apply lookup_ge_None; assumption).
      reflexivity.
  - simpl.
    destruct (offsets_ a !! it) as [oi|] eqn:Hi.
    2:{ rewrite (drop_ge (offsets_ a)) by (apply lookup_ge_None; assumption).
        reflexivity. }
    destruct (offsets_ b !! jt) as [oj|] eqn:Hj.
    2:{ rewrite (drop_ge (offsets_ b)) by (apply lookup_ge_None; assumption).
        rewrite filter_none; [reflexivity|].
        apply Forall_forall. intros x _ Hx. inversion Hx. }
    destruct (ascending_suffix _ _ _ Hsa Hi) as [Hda Haa].
    destruct (ascending_suffix _ _ _ Hsb Hj) as [Hdb Hab].
    pose proof (lookup_lt_Some _ _ _ Hi) as Hli.
    pose proof (lookup_lt_Some _ _ _ Hj) as Hlj.
    rewrite Forall_forall in Haa, Hab.
    destruct (N.ltb_spec oi oj) as [Hlt|Hge].
    + rewrite IH by lia. f_equal. rewrite Hda.
      rewrite filter_cons_False; [reflexivity|].
      rewrite Hdb. intros Hin.
      apply elem_of_cons in Hin as [->|Hin]; [lia|].
      specialize (Hab _ Hin). lia.
    + destruct (N.ltb_spec oj oi) as [Hlt|Hge'].
      * rewrite IH by lia. f_equal. f_equal. rewrite Hdb.
        apply filter_agree. rewrite Hda. apply Forall_forall.
        intros x Hx. rewrite elem_of_cons.
        assert (x <> oj); [|tauto].
        apply elem_of_cons in Hx as [->|Hx]; [lia|].
        specialize (Haa _ Hx). lia.
      * assert (oi = oj) as -> by lia.
        rewrite IH by lia. f_equal.
        rewrite Hda. rewrite filter_cons_True.
        2:{ rewrite Hdb. apply elem_of_cons. auto. }
        simpl. unfold product_at at 3.
        rewrite (get_at_index a it oj Hsa Hla Hi).
        rewrite (get_at_index b jt oj Hsb Hlb Hj).
        f_equal. rewrite Hdb. apply filter_agree.
        apply Forall_forall. intros x Hx. rewrite elem_of_cons.
        assert (x <> oj); [|tauto].
        specialize (Haa _ Hx). lia.
Qed.

Lemma dot_from_correct a b ret :
  ascending (offsets_ a) -> ascending (offsets_ b) ->
  length (offsets_ a) = length (values_ a) ->
  length (offsets_ b) = length (values_ b) ->
  dot_from zero add mul a b ret
  = Some (dot_reference zero add mul a b ret).
Proof.
  intros Hsa Hsb Hla Hlb. unfold dot_from.
  rewrite (dot_loop_correct a b Hsa Hsb Hla Hlb) by lia.
  reflexivity.
Qed.

(** Two ascending vectors with the same elements are equal. *)
Lemma ascending_ext l1 : forall l2,
  ascending l1 -> ascending l2 ->
  (forall x, x ∈ l1 <-> x ∈ l2) -> l1 = l2.
Proof.
  induction l1 as [|x l1 IH]; intros l2 H1 H2 Hext.
  - destruct l2 as [|y l2]; [reflexivity|].
    exfalso. assert (y ∈ []) as Hy by (apply Hext; left).
    inversion Hy.
  - destruct l2 as [|y l2].
    { exfalso. assert (x ∈ []) as Hx by (apply Hext; left).
      inversion Hx. }
    apply ascending_cons in H1 as [Ha1 H1].
    apply ascending_cons in H2 as [Ha2 H2].
    rewrite Forall_forall in Ha1, Ha2.
    assert (x = y) as ->.
    { assert (x ∈ y :: l2) as Hx by (apply Hext; left).
      assert (y ∈ x :: l1) as Hy by (apply Hext; left).
      apply elem_of_cons in Hx as [?|Hx]; [assumption|].
      apply elem_of_cons in Hy as [?|Hy]; [congruence|].
      specialize (Ha1 _ Hy). specialize (Ha2 _ Hx). lia. }
    f_equal. apply IH; try assumption.
    intros z. split; intros Hz.
    + assert (z ∈ y :: l2) as Hz' by (apply Hext; right; assumption).
      apply elem_of_cons in Hz' as [->|?]; [|assumption].
      specialize (Ha1 _ Hz). lia.
    + assert (z ∈ y :: l1) as Hz' by (apply Hext; right; assumption).
      apply elem_of_cons in Hz' as [->|?]; [|assumption].
      specialize (Ha2 _ Hz). lia.
Qed.

Lemma ascending_filter (P : N -> Prop) `{!forall x, Decision (P x)} l :
  ascending l -> ascending (filter P l).
Proof.
  induction l as [|x l IH]; intros Hs; [constructor|].
  apply ascending_cons in Hs as [Hall Hs].
  destruct (decide (P x)).
  - rewrite filter_cons_True by assumption.
    apply ascending_cons. split; [|auto].
    rewrite Forall_forall in Hall. apply Forall_forall.
    intros y Hy. apply list_elem_of_filter in Hy as [_ Hy]. auto.
  - rewrite filter_cons_False by assumption. auto.
Qed.

Lemma ascending_range s c : ascending (map N.of_nat (seq s c)).
Proof.
  revert s. induction c as [|c IH]; intros s; simpl; [constructor|].
  apply ascending_cons. split; [|apply IH].
  apply Forall_forall. intros x Hx.
  apply list_elem_of_In, in_map_iff in Hx as (j & <- & Hj).
  apply in_seq in Hj. lia.
Qed.

Lemma elem_of_indices n x : x ∈ indices n <-> x < n.
Proof.
  unfold indices. rewrite list_elem_of_In, in_map_iff. split.
  - intros (j & <- & Hj). apply in_seq in Hj. lia.
  - intros Hx. exists (N.to_nat x). split; [lia|].
    apply in_seq. lia.
Qed.

(** Steps at which nothing is added can be left out of a sum. *)
Lemma fold_left_skip {A} (f : T -> A -> T)
      (P : A -> Prop) `{!forall x, Decision (P x)} l :
  (forall r x, ~ P x -> f r x = r) ->
  forall ret, fold_left f l ret = fold_left f (filter P l) ret.
Proof.
  intros Hskip. induction l as [|x l IH]; intros ret; [reflexivity|].
  destruct (decide (P x)).
  - rewrite filter_cons_True by assumption. simpl. apply IH.
  - rewrite filter_cons_False by assumption. simpl.
    rewrite Hskip by assumption. apply IH.
Qed.

Lemma dense_is_reference a b :
  (forall x, mul zero x = zero) ->
  (forall x, mul x zero = zero) ->
  (forall r, add r zero = r) ->
  ascending (offsets_ a) -> ascending (offsets_ b) ->
  Forall (fun o => o < size_ a) (offsets_ a) ->
  dense_inner_product zero add mul a b
  = dot_reference zero add mul a b zero.
Proof.
  intros Hzl Hzr Haz Hsa Hsb Hba.
  unfold dense_inner_product, dot_reference.
  rewrite (fold_left_skip (product_at zero add mul a b)
             (fun o => o ∈ offsets_ a /\ o ∈ offsets_ b)).
  - f_equal. apply ascending_ext.
    + apply ascending_filter. apply ascending_range.
    + apply ascending_filter. assumption.
    + intros x. unfold common_offsets.
      rewrite !list_elem_of_filter, elem_of_indices.
      rewrite Forall_forall in Hba. split.
      * tauto.
      * intros [Hb Ha]. specialize (Hba _ Ha). tauto.
  - intros r x Hx. unfold product_at.
    destruct (decide (x ∈ offsets_ a)) as [Ha|Ha].
    + assert (x ∉ offsets_ b) as Hb by tauto.
      rewrite (get_absent b x Hb), Hzr, Haz. reflexivity.
    + rewrite (get_absent a x Ha), Hzl, Haz. reflexivity.
Qed.

(** C7, as the code has it.  For two vectors with ascending offsets and
    as many values as offsets, [dot] and [operator*] terminate and return
    the sum, taken in
    ascending offset order, over the offsets stored in both vectors of
    the product of the two values at that offset.  When in addition the
    stored offsets of the first vector lie below its logical size and
    the element type satisfies [0 * x = x * 0 = 0] and [r + 0 = r], this
    is the dense inner product of the two vectors read through the
    const element access over the indices below that size. *)
Theorem dot_correct a b :
  ascending (offsets_ a) -> ascending (offsets_ b) ->
  length (offsets_ a) = length (values_ a) ->
  length (offsets_ b) = length (values_ b) ->
  dot zero add mul a b = Some (dot_reference zero add mul a b zero)
  /\ op_mul zero add mul a b = Some (dot_reference zero add mul a b zero)
  /\ ((forall x, mul zero x = zero) ->
      (forall x, mul x zero = zero) ->
      (forall r, add r zero = r) ->
      Forall (fun o => o < size_ a) (offsets_ a) ->
      size_ a = size_ b ->
      dot zero add mul a b = Some (dense_inner_product zero add mul a b)).
Proof.
  intros Hsa Hsb Hla Hlb.
  pose proof (dot_from_correct a b zero Hsa Hsb Hla Hlb) as Hdot.
  split; [exact Hdot|]. split; [exact Hdot|].
  intros Hzl Hzr Haz Hba _. unfold dot. rewrite Hdot. f_equal.
  symmetry. apply dense_is_reference; assumption.
Qed.

End CompressedVectorFacts.


(** * The operations on sample vectors *)

Lemma cv_one_invariant : invariant Sample.cv_one.
Proof.
  unfold invariant, ascending. simpl. split; [|split].
  - repeat constructor.
  - repeat constructor.
  - reflexivity.
Qed.

(** C2 at a failing input.  [cv_one] has logical size 3 and the single
    entry [(1, 5)] and satisfies the invariant.  [resize(5, 7)] pads
    [values_] and [offsets_] to five elements each and then numbers only
    the positions 3 and 4: next to the entries [(3, 7)] and [(4, 7)] it
    stores the value 7 twice more, at offset 0, and the offsets are no
    longer ascending. *)
Theorem resize_grow_with_fill :
  invariant Sample.cv_one
  /\ resize 0%Z Sample.cv_one 5 7%Z
     = {| values_ := [5; 7; 7; 7; 7]%Z;
          offsets_ := [1; 0; 0; 3; 4];
          size_ := 5 |}
  /\ entries (resize 0%Z Sample.cv_one 5 7%Z)
     <> entries Sample.cv_one ++ [(3, 7%Z); (4, 7%Z)]
  /\ ~ invariant (resize 0%Z Sample.cv_one 5 7%Z).
Proof.
  split; [exact cv_one_invariant|]. split; [reflexivity|]. split.
  - discriminate.
  - intros (Hs & _). simpl in Hs.
    apply ascending_cons in Hs as [Hall _].
    apply Forall_cons in Hall as [Hlt _]. lia.
Qed.

(** C3 refuted as stated.  [cv_one] satisfies the invariant; the mutable
    element access at index 5, beyond its logical size 3, stores the
    offset 5, and the result does not satisfy the invariant. *)
Lemma subscript_breaks_invariant :
  invariant Sample.cv_one
  /\ snd (subscript 0%Z Sample.cv_one 5)
     = {| values_ := [5; 0]%Z; offsets_ := [1; 5]; size_ := 3 |}
  /\ ~ invariant (snd (subscript 0%Z Sample.cv_one 5)).
Proof.
  split; [exact cv_one_invariant|]. split; [reflexivity|].
  intros (_ & Hb & _). simpl in Hb.
  apply Forall_cons in Hb as [_ Hb].
  apply Forall_cons in Hb as [Hlt _]. lia.
Qed.

Lemma invariant_preserved_witness :
  invariant Sample.cv_one
  /\ invariant (snd (subscript 0%Z Sample.cv_one 2))
  /\ invariant (resize 0%Z Sample.cv_one 1 7%Z)
  /\ invariant (clear 0%Z Sample.cv_one).
Proof.
  assert (invariant Sample.cv_one) as Hinv.
  { unfold invariant, ascending. simpl.
    split; [|split]; [repeat constructor..|reflexivity]. }
  destruct (invariant_preserved 0%Z Sample.cv_one Hinv)
    as (_ & _ & Hsub & Hres & Hclr).
  split; [exact Hinv|]. split; [|split].
  - apply Hsub. reflexivity.
  - apply Hres. right. left. reflexivity.
  - exact Hclr.
Defined.

Lemma subscript_const_correct_witness :
  fst (subscript_const 0%Z Sample.cv_one 1) = 5%Z
  /\ fst (subscript_const 0%Z Sample.cv_one 2) = 0%Z
  /\ snd (subscript_const 0%Z Sample.cv_one 1) = Sample.cv_one.
Proof.
  assert (ascending (offsets_ Sample.cv_one)) as Hs.
  { unfold ascending. simpl. repeat constructor. }
  assert (length (offsets_ Sample.cv_one) = length (values_ Sample.cv_one))
    as Hl by reflexivity.
  destruct (subscript_const_correct 0%Z Sample.cv_one 1 Hs Hl)
    as (Hstored & _ & Hsame).
  destruct (subscript_const_correct 0%Z Sample.cv_one 2 Hs Hl)
    as (_ & Habsent & _).
  split; [|split].
  - specialize (Hstored 0%nat eq_refl).
    change (Some 5%Z = Some (fst (subscript_const 0%Z Sample.cv_one 1)))
      in Hstored.
    congruence.
  - apply Habsent. simpl. intros Hin.
    apply list_elem_of_singleton in Hin. discriminate.
  - exact Hsame.
Defined.

Lemma subscript_mutable_correct_witness :
  size_ (snd (subscript 0%Z Sample.cv_one 7)) = 3
  /\ offsets_ (snd (subscript 0%Z Sample.cv_one 7))
     !! fst (subscript 0%Z Sample.cv_one 7) = Some 7.
Proof.
  assert (ascending (offsets_ Sample.cv_one)) as Hs.
  { unfold ascending. simpl. repeat constructor. }
  assert (length (offsets_ Sample.cv_one) = length (values_ Sample.cv_one))
    as Hl by reflexivity.
  destruct (subscript_mutable_correct 0%Z Sample.cv_one 7 Hs Hl)
    as (Hsz & Hslot & _).
  split; [exact Hsz | exact Hslot].
Defined.

Lemma dot_correct_witness :
  dot 0%Z Z.add Z.mul Sample.cv_one Sample.cv_two
  = Some (dense_inner_product 0%Z Z.add Z.mul Sample.cv_one Sample.cv_two).
Proof.
  assert (ascending (offsets_ Sample.cv_one)) as Hs1.
  { unfold ascending. simpl. repeat constructor. }
  assert (ascending (offsets_ Sample.cv_two)) as Hs2.
  { unfold ascending. simpl. repeat constructor. }
  destruct (dot_correct 0%Z Z.add Z.mul Sample.cv_one Sample.cv_two
              Hs1 Hs2 eq_refl eq_refl) as (_ & _ & Hdense).
  apply Hdense.
  - intros x. reflexivity.
  - intros x. apply Z.mul_0_r.
  - intros r. apply Z.add_0_r.
  - simpl. repeat constructor.
  - reflexivity.
Defined.

(** C7 refuted as stated.  Equal logical sizes do not make [dot] the dense
    inner product.  (1) After [v[5] = 9] and [w[5] = 2] two vectors of
    logical size 3 store offset 5 in both: [dot] adds [9 * 2] and gives 28,
    while the dense product over the indices 0, 1, 2 is 10.  (2) For
    [double] elements, a vector that stores infinity at offset 1 and one
    that stores nothing both satisfy the invariant: [dot] finds no common
    offset and gives 0, while the dense product computes [inf * 0] and is
    NaN. *)
Lemma dot_differs_from_dense_inner_product :
  (Sample.cv_one_beyond = assign_at 0%Z Sample.cv_one 5 9%Z
   /\ Sample.cv_two_beyond = assign_at 0%Z Sample.cv_two 5 2%Z
   /\ ascending (offsets_ Sample.cv_one_beyond)
   /\ ascending (offsets_ Sample.cv_two_beyond)
   /\ size_ Sample.cv_one_beyond = size_ Sample.cv_two_beyond
   /\ dot 0%Z Z.add Z.mul Sample.cv_one_beyond Sample.cv_two_beyond
      = Some 28%Z
   /\ dense_inner_product 0%Z Z.add Z.mul
        Sample.cv_one_beyond Sample.cv_two_beyond = 10%Z
   /\ dot 0%Z Z.add Z.mul Sample.cv_one_beyond Sample.cv_two_beyond
      <> Some (dense_inner_product 0%Z Z.add Z.mul
                 Sample.cv_one_beyond Sample.cv_two_beyond))
  /\ (invariant Sample.cv_infinity
      /\ invariant Sample.cv_nothing
      /\ size_ Sample.cv_infinity = size_ Sample.cv_nothing
      /\ dot PrimFloat.zero PrimFloat.add PrimFloat.mul
           Sample.cv_infinity Sample.cv_nothing = Some PrimFloat.zero
      /\ PrimFloat.is_nan
           (dense_inner_product PrimFloat.zero PrimFloat.add PrimFloat.mul
              Sample.cv_infinity Sample.cv_nothing) = true
      /\ dot PrimFloat.zero PrimFloat.add PrimFloat.mul
           Sample.cv_infinity Sample.cv_nothing
         <> Some (dense_inner_product PrimFloat.zero PrimFloat.add
                    PrimFloat.mul Sample.cv_infinity Sample.cv_nothing)).
Proof.
  split.
  - split; [reflexivity|]. split; [reflexivity|].
    split; [unfold ascending; simpl; repeat constructor|].
    split; [unfold ascending; simpl; repeat constructor|].
    split; [reflexivity|]. split; [reflexivity|].
    split; [reflexivity|]. discriminate.
  - assert (PrimFloat.is_nan
              (dense_inner_product PrimFloat.zero PrimFloat.add PrimFloat.mul
                 Sample.cv_infinity Sample.cv_nothing) = true) as Hnan
        by (vm_compute; reflexivity).
    split.
    { unfold invariant, ascending. simpl.
      split; [|split]; [repeat constructor..|reflexivity]. }
    split.
    { unfold invariant, ascending. simpl.
      split; [|split]; [constructor..|reflexivity]. }
    split; [reflexivity|]. split; [reflexivity|]. split; [exact Hnan|].
    intros Heq.
    assert (dot PrimFloat.zero PrimFloat.add PrimFloat.mul
              Sample.cv_infinity Sample.cv_nothing = Some PrimFloat.zero)
      as Hdot by reflexivity.
    rewrite Hdot in Heq.
    apply (f_equal (fun r => match r with
                             | Some x => PrimFloat.is_nan x
                             | None => false
                             end)) in Heq.
    vm_compute in Heq. discriminate.
Qed.

(** The operations on small inputs. *)
Example assign_dense_sample :
  assign_dense 0%Z Sample.cv_one [0; 3; 0; 4]%Z
  = {| values_ := [3; 4]%Z; offsets_ := [1; 3]; size_ := 4 |}.
Proof. reflexivity. Qed.

Example subscript_sample :
  subscript 0%Z Sample.cv_two 0
  = (0%nat, {| values_ := [0; 2; 4]%Z; offsets_ := [0; 1; 2]; size_ := 3 |})
  /\ subscript 0%Z Sample.cv_two 2 = (1%nat, Sample.cv_two)
  /\ get 0%Z Sample.cv_two 2 = 4%Z
  /\ get 0%Z Sample.cv_two 0 = 0%Z.
Proof. repeat split. Qed.

Example resize_sample :
  resize 0%Z Sample.cv_two 2 7%Z
  = {| values_ := [2%Z]; offsets_ := [1]; size_ := 2 |}
  /\ resize 0%Z Sample.cv_two 9 0%Z
     = {| values_ := [2; 4]%Z; offsets_ := [1; 2]; size_ := 9 |}
  /\ clear 0%Z Sample.cv_two
     = {| values_ := []; offsets_ := []; size_ := 0 |}.
Proof. repeat split. Qed.

(** The sample product: only offset 1 is stored in both vectors. *)
Example dot_sample :
  dot 0%Z Z.add Z.mul Sample.cv_one Sample.cv_two = Some 10%Z.
Proof. reflexivity. Qed.


(** * Properties of [cmf::marker] *)

Section MarkerFacts.

Import Cmf.

Implicit Types (gt s : list allele_status) (off : N)
         (nz pre vec : list sparse_vector_allele).

(** ** The dense constructor *)

Lemma dense_loop_acc gt : forall off nz,
  dense_loop gt off nz = nz ++ dense_loop gt off [].
Proof.
  induction gt as [|x rest IH]; intros off nz; simpl.
  - rewrite app_nil_r. reflexivity.
  - destruct (decide (x = has_ref)); [apply IH|].
    rewrite (IH _ (Std.emplace_back _ nz)), (IH _ (Std.emplace_back _ [])).
    unfold Std.emplace_back. rewrite <- app_assoc. reflexivity.
Qed.

Lemma next_offset off n :
  off + N.of_nat (S n) < u64_modulus -> (off + 1) mod u64_modulus = off + 1.
Proof. intros Hb. apply N.mod_small. lia. Qed.

(** The stored entries are the calls that differ from [has_ref], each
    with its dense offset. *)
Lemma dense_loop_entries gt : forall off e,
  off + N.of_nat (length gt) < u64_modulus ->
  e ∈ dense_loop gt off []
  <-> exists j, gt !! j = Some (status e)
                /\ offset e = off + N.of_nat j
                /\ status e <> has_ref.
Proof.
  induction gt as [|x rest IH]; intros off e Hb.
  - simpl. split.
    + intros Hin. inversion Hin.
    + intros (j & Hj & _). rewrite lookup_nil in Hj. discriminate.
  - simpl length in Hb. simpl dense_loop.
    rewrite (next_offset _ _ Hb).
    assert (off + 1 + N.of_nat (length rest) < u64_modulus) as Hb' by lia.
    destruct (decide (x = has_ref)) as [Hx|Hx].
    + rewrite (IH (off + 1) e Hb'). split.
      * intros (j & Hj & Ho & Hs). exists (S j). simpl.
        split; [assumption|]. split; [lia|assumption].
      * intros (j & Hj & Ho & Hs). destruct j as [|j]; simpl in Hj.
        { congruence. }
        exists j. split; [assumption|]. split; [lia|assumption].
    + rewrite dense_loop_acc. unfold Std.emplace_back. simpl.
      rewrite elem_of_cons, (IH (off + 1) e Hb'). split.
      * intros [->|(j & Hj & Ho & Hs)].
        { exists 0%nat. simpl. split; [reflexivity|].
          split; [lia|assumption]. }
        exists (S j). simpl. split; [assumption|]. split; [lia|assumption].
      * intros (j & Hj & Ho & Hs). destruct j as [|j]; simpl in Hj.
        { left. destruct e as [eo es]. simpl in *.
          f_equal; [lia|congruence]. }
        right. exists j. split; [assumption|]. split; [lia|assumption].
Qed.

(** ** Dense iteration *)

Lemma status_not_ref x :
  x <> has_ref -> (if decide (x = is_missing) then is_missing else has_alt) = x.
Proof. destruct x; intros Hx; simpl; congruence. Qed.

(** Walking the cursor over the entries built from [gt], from dense offset
    [off] on, gives [gt] back. *)
Lemma collect_dense gt : forall off pre vec fuel last,
  off + N.of_nat (length gt) < u64_modulus ->
  (length gt <= fuel)%nat ->
  vec = pre ++ dense_loop gt off [] ->
  i_ last = off + N.of_nat (length gt) ->
  collect fuel vec
    {| ptr_ := length pre; ptr_end_ := length vec; i_ := off |} last
  = Some gt.
Proof.
  induction gt as [|x rest IH]; intros off pre vec fuel last Hb Hf Hv Hl.
  - simpl in Hl. destruct fuel; simpl; unfold it_neq; simpl;
      rewrite Hl, N.add_0_r, N.eqb_refl; reflexivity.
  - simpl length in *. destruct fuel as [|fuel]; [lia|].
    simpl collect. unfold it_neq at 1. simpl i_ at 1.
    destruct (N.eqb_spec off (i_ last)) as [Heq|_]; [lia|]. simpl negb.
    assert (off + 1 + N.of_nat (length rest) < u64_modulus) as Hb' by lia.
    simpl dense_loop in Hv. rewrite (next_offset _ _ Hb) in Hv.
    destruct (decide (x = has_ref)) as [Hx|Hx].
    + assert (at_entry vec {| ptr_ := length pre; ptr_end_ := length vec;
                              i_ := off |} = None) as Hat.
      { unfold at_entry. simpl.
        destruct (decide (length pre = length vec)); [reflexivity|].
        destruct (vec !! length pre) as [e|] eqn:He; [|reflexivity].
        destruct (decide (off = offset e)) as [Ho|]; [|reflexivity].
        exfalso. subst vec.
        rewrite lookup_app_r in He by lia.
        apply list_elem_of_lookup_2 in He.
        apply (dense_loop_entries rest (off + 1) e Hb') in He
          as (j & _ & Ho' & _). lia. }
      unfold increment, deref. rewrite Hat. simpl ptr_. simpl ptr_end_.
      simpl i_. rewrite (next_offset _ _ Hb).
      rewrite (IH (off + 1) pre vec fuel last Hb'); [|lia|assumption|lia].
      rewrite Hx. reflexivity.
    + rewrite dense_loop_acc in Hv. unfold Std.emplace_back in Hv.
      simpl in Hv.
      assert (at_entry vec {| ptr_ := length pre; ptr_end_ := length vec;
                              i_ := off |} = Some (mk_sva off x)) as Hat.
      { unfold at_entry. simpl. subst vec.
        destruct (decide (length pre = length (pre ++ _))) as [Hlen|_].
        { rewrite length_app in Hlen. simpl in Hlen. lia. }
        rewrite list_lookup_middle by reflexivity. simpl.
        destruct (decide (off = off)); [reflexivity|congruence]. }
      unfold increment, deref. rewrite Hat. simpl ptr_. simpl ptr_end_.
      simpl i_. simpl status. rewrite (next_offset _ _ Hb).
      rewrite (status_not_ref x Hx).
      replace (S (length pre)) with (length (pre ++ [mk_sva off x]))
        by (rewrite length_app; simpl; lia).
      rewrite (IH (off + 1) (pre ++ [mk_sva off x]) vec fuel last Hb');
        [reflexivity|lia| |lia].
      rewrite Hv, <- app_assoc. reflexivity.
Qed.

(** C1.  For a dense sequence [s] of allele statuses (of a length that a
    [std::uint64_t] holds), the marker built from [s] by the dense
    constructor has [haplotype_count() = |s|]; iterating it from [begin()]
    to [end()] terminates and yields exactly [s]; and its stored entries
    are the statuses of [s] other than [has_ref], each at its offset in
    [s], so that the iteration reads [has_ref] everywhere else. *)
Theorem dense_round_trip position ref alt s :
  N.of_nat (length s) < u64_modulus ->
  let m := marker_dense position ref alt s in
  haplotype_count m = N.of_nat (length s)
  /\ (forall fuel, (length s <= fuel)%nat -> dense_view fuel m = Some s)
  /\ (forall e, e ∈ non_zero_haplotypes_ m
                <-> s !! N.to_nat (offset e) = Some (status e)
                    /\ status e <> has_ref).
Proof.
  intros Hb m.
  assert (haplotype_count m = N.of_nat (length s)) as Hcount.
  { subst m. unfold haplotype_count, marker_dense. simpl.
    apply N.mod_small. assumption. }
  split; [exact Hcount|]. split.
  - intros fuel Hf. unfold dense_view, begin_, end_.
    apply (collect_dense s 0 [] (non_zero_haplotypes_ m) fuel).
    + simpl. lia.
    + assumption.
    + reflexivity.
    + unfold haplotype_count in Hcount.
      change (haplotype_count_ m = 0 + N.of_nat (length s)).
      rewrite Hcount. lia.
  - intros e. subst m. simpl non_zero_haplotypes_.
    rewrite (dense_loop_entries s 0 e) by (simpl; lia). split.
    + intros (j & Hj & Ho & Hs). rewrite Ho.
      replace (N.to_nat (0 + N.of_nat j)) with j by lia. auto.
    + intros [Hj Hs]. exists (N.to_nat (offset e)).
      split; [assumption|]. split; [lia|assumption].
Qed.

(** ** The sparse constructor *)

Lemma sparse_loop_rejects (input : list sparse_vector_allele) : forall nz,
  Exists (fun e => status e = has_ref) input ->
  sparse_loop input nz = inl (range_error "FOOBAR").
Proof.
  induction input as [|e rest IH]; intros nz Hex; simpl.
  - inversion Hex.
  - destruct (decide (status e = has_ref)) as [_|Hne]; [reflexivity|].
    apply IH. apply Exists_cons in Hex as [?|?]; [contradiction|assumption].
Qed.

Lemma sparse_loop_copies (input : list sparse_vector_allele) : forall nz,
  Forall (fun e => status e <> has_ref) input ->
  sparse_loop input nz = inr (nz ++ input).
Proof.
  induction input as [|e rest IH]; intros nz Hall; simpl.
  - rewrite app_nil_r. reflexivity.
  - apply Forall_cons in Hall as [He Hall].
    destruct (decide (status e = has_ref)); [contradiction|].
    rewrite (IH _ Hall). unfold Std.emplace_back.
    rewrite <- app_assoc. reflexivity.
Qed.

(** C6.  The sparse constructor throws (a [std::range_error], the
    specification's INVALID_INPUT) when some input entry has status
    [has_ref]; it throws when the given haplotype count is smaller than the
    number of entries; in every other case it succeeds, and the marker
    holds the given entries in the given order, the given haplotype count,
    and the given position and alleles. *)
Theorem marker_sparse_correct position ref alt
        (input : list sparse_vector_allele) (total : N) :
  (Exists (fun e => status e = has_ref) input ->
   marker_sparse position ref alt input total = inl (range_error "FOOBAR"))
  /\ (total < N.of_nat (length input) ->
      exists what,
        marker_sparse position ref alt input total = inl (range_error what))
  /\ (Forall (fun e => status e <> has_ref) input ->
      total < N.of_nat (length input) ->
      marker_sparse position ref alt input total = inl (range_error "FOOBAR2"))
  /\ (Forall (fun e => status e <> has_ref) input ->
      N.of_nat (length input) <= total ->
      marker_sparse position ref alt input total
      = inr {| non_zero_haplotypes_ := input; ref_ := ref; alt_ := alt;
               position_ := position; haplotype_count_ := total |}).
Proof.
  assert (Forall (fun e => status e <> has_ref) input ->
          total < N.of_nat (length input) ->
          marker_sparse position ref alt input total
          = inl (range_error "FOOBAR2")) as Hshort.
  { intros Hall Hlt. unfold marker_sparse.
    rewrite (sparse_loop_copies input [] Hall). simpl.
    apply N.ltb_lt in Hlt. rewrite Hlt. reflexivity. }
  assert (Exists (fun e => status e = has_ref) input ->
          marker_sparse position ref alt input total
          = inl (range_error "FOOBAR")) as Href.
  { intros Hex. unfold marker_sparse.
    rewrite (sparse_loop_rejects input [] Hex). reflexivity. }
  split; [exact Href|]. split; [|split; [exact Hshort|]].
  - intros Hlt.
    destruct (decide (Exists (fun e => status e = has_ref) input))
      as [Hex|Hnex].
    + exists "FOOBAR"%string. auto.
    + exists "FOOBAR2"%string. apply Hshort; [|assumption].
      apply Forall_forall. intros e He Hs. apply Hnex.
      apply Exists_exists. eauto.
  - intros Hall Hge. unfold marker_sparse.
    rewrite (sparse_loop_copies input [] Hall). simpl.
    apply N.ltb_ge in Hge. rewrite Hge. reflexivity.
Qed.

End MarkerFacts.

Lemma dense_round_trip_witness :
  Cmf.dense_view 6 (Cmf.marker_dense 12345 "A" "G" Sample.calls_s3)
  = Some Sample.calls_s3.
Proof.
  assert (N.of_nat (length Sample.calls_s3) < u64_modulus) as Hb
    by reflexivity.
  destruct (dense_round_trip 12345 "A" "G" Sample.calls_s3 Hb)
    as (_ & Hview & _).
  apply Hview. simpl. lia.
Defined.

(** Scenario S3: the dense calls [REF, ALT, REF, REF, MISSING, REF] are
    stored as [(1, ALT), (4, MISSING)] with haplotype count 6. *)
Example dense_constructor_s3 :
  Cmf.marker_dense 12345 "A" "G" Sample.calls_s3
  = {| Cmf.non_zero_haplotypes_ :=
         [Cmf.mk_sva 1 Cmf.has_alt; Cmf.mk_sva 4 Cmf.is_missing];
       Cmf.ref_ := "A"; Cmf.alt_ := "G"; Cmf.position_ := 12345;
       Cmf.haplotype_count_ := 6 |}.
Proof. reflexivity. Qed.

(** Scenario S4's marker is accepted; with a [has_ref] entry, or with
    fewer haplotypes than entries, the constructor throws. *)
Example sparse_constructor_s4 :
  Cmf.marker_sparse 12345 "A" "G" Sample.entries_s4 8
  = inr {| Cmf.non_zero_haplotypes_ := Sample.entries_s4;
           Cmf.ref_ := "A"; Cmf.alt_ := "G"; Cmf.position_ := 12345;
           Cmf.haplotype_count_ := 8 |}
  /\ Cmf.marker_sparse 12345 "A" "G" Sample.entries_s4 2
     = inl (Cmf.range_error "FOOBAR2")
  /\ Cmf.marker_sparse 12345 "A" "G" [Cmf.mk_sva 0 Cmf.has_ref] 8
     = inl (Cmf.range_error "FOOBAR").
Proof. repeat split. Qed.


(** * Properties of [cmf::writer] *)

Section WriterFacts.

Import Cmf.

Variable varint_encode : N -> list byte.
Variable marker_write : Stream.ostream -> marker -> Stream.ostream.

Implicit Types (os : Stream.ostream) (w : writer) (m : marker).

Lemma failbit_not_good os : Stream.failbit os = true -> Stream.good os = false.
Proof.
  intros Hf. unfold Stream.good. rewrite Hf.
  destruct (Stream.badbit os); reflexivity.
Qed.

Lemma write_good os data :
  Stream.good os = true -> Stream.write os data = Stream.put os data.
Proof. intros Hg. unfold Stream.write. rewrite Hg. reflexivity. Qed.

Lemma sink_put os data :
  Stream.sink (Stream.put os data) = Stream.sink os ++ data.
Proof. reflexivity. Qed.

(** ** The constructor *)

(** The loop over the sample names on a good stream. *)
Lemma write_samples_good samples : forall os,
  Stream.good os = true ->
  Stream.good (fold_left (write_sample varint_encode) samples os) = true
  /\ Stream.sink (fold_left (write_sample varint_encode) samples os)
     = Stream.sink os ++ concat (map (length_prefixed varint_encode) samples).
Proof.
  induction samples as [|name rest IH]; intros os Hg; simpl.
  - rewrite app_nil_r. auto.
  - assert (Stream.good (write_sample varint_encode os name) = true) as Hg'.
    { unfold write_sample. rewrite write_good; assumption. }
    destruct (IH _ Hg') as [Hgood Hsink]. split; [assumption|].
    rewrite Hsink. unfold write_sample at 1.
    rewrite write_good by assumption. rewrite !sink_put.
    unfold length_prefixed at 2. rewrite <- !app_assoc. reflexivity.
Qed.

(** C9.  Constructing a writer over a good stream appends to the sink, in
    this order and nothing else: the eight bytes [cvcf\0\x01\0\0], the
    varint of the chromosome length and the chromosome bytes, the varint
    of the ploidy, the varint of the sample count and the length-prefixed
    sample names, and the varint of a metadata-field count followed by
    that many length-prefixed descriptors (the count is always zero).  The
    stream stays good, and the writer remembers the sample count and the
    ploidy. *)
Theorem writer_new_emits_header os chromosome ploidy (samples : list string) :
  Stream.good os = true ->
  N.of_nat (length samples) < u64_modulus ->
  let w := writer_new varint_encode os chromosome ploidy samples in
  output w
  = Stream.sink os ++ header_layout varint_encode chromosome ploidy samples []
  /\ version_string
     = list_byte_of_string "cvcf" ++ [Byte.x00; Byte.x01; Byte.x00; Byte.x00]
  /\ Stream.good (output_stream_ w) = true
  /\ sample_size_ w = N.of_nat (length samples)
  /\ ploidy_level_ w = ploidy.
Proof.
  intros Hg Hb w. subst w. unfold writer_new, output. simpl.
  rewrite (N.mod_small _ _ Hb). rewrite (write_good os _ Hg).
  match goal with
  | |- context [fold_left _ samples ?o] =>
      destruct (write_samples_good samples o) as [Hgood Hsink];
        [exact Hg|]
  end.
  split; [|split; [reflexivity|split; [exact Hgood|split; reflexivity]]].
  rewrite Hsink. simpl. unfold header_layout, length_prefixed. simpl.
  rewrite app_nil_r, <- !app_assoc. reflexivity.
Qed.

(** ** [operator<<] *)

Lemma op_shl_not_good w m :
  Stream.good (output_stream_ w) = false -> op_shl marker_write w m = w.
Proof. intros Hg. unfold op_shl. rewrite Hg. reflexivity. Qed.

Lemma op_shl_many_not_good (ms : list marker) : forall w,
  Stream.good (output_stream_ w) = false ->
  fold_left (op_shl marker_write) ms w = w.
Proof.
  induction ms as [|m rest IH]; intros w Hg; simpl; [reflexivity|].
  rewrite (op_shl_not_good w m Hg). apply IH. assumption.
Qed.

(** C4.  For a writer whose expected haplotype count [sample count *
    ploidy] fits a [std::uint64_t]: a write on a stream that is not good
    changes nothing; on a good stream, a marker whose haplotype count
    differs from [sample count * ploidy] sets the fail bit and adds no
    byte to the output, and no later write adds one either; a marker with
    the right haplotype count is passed to [marker::write].  Once the fail
    bit is set, every sequence of writes leaves the writer, and so the
    output, as it is. *)
Theorem op_shl_correct w m :
  sample_size_ w * ploidy_level_ w < u64_modulus ->
  (Stream.good (output_stream_ w) = false -> op_shl marker_write w m = w)
  /\ (Stream.good (output_stream_ w) = true ->
      haplotype_count m <> sample_size_ w * ploidy_level_ w ->
      output (op_shl marker_write w m) = output w
      /\ Stream.failbit (output_stream_ (op_shl marker_write w m)) = true
      /\ Stream.good (output_stream_ (op_shl marker_write w m)) = false
      /\ forall ms : list marker,
           output (fold_left (op_shl marker_write) ms
                     (op_shl marker_write w m)) = output w)
  /\ (Stream.good (output_stream_ w) = true ->
      haplotype_count m = sample_size_ w * ploidy_level_ w ->
      output_stream_ (op_shl marker_write w m)
      = marker_write (output_stream_ w) m)
  /\ (Stream.failbit (output_stream_ w) = true ->
      forall ms : list marker, fold_left (op_shl marker_write) ms w = w).
Proof.
  intros Hb. rewrite <- (N.mod_small _ _ Hb).
  split; [apply op_shl_not_good|]. split; [|split].
  - intros Hg Hne.
    assert (op_shl marker_write w m
            = {| output_stream_ := Stream.setstate_failbit (output_stream_ w);
                 sample_size_ := sample_size_ w;
                 ploidy_level_ := ploidy_level_ w |}) as ->.
    { unfold op_shl. rewrite Hg.
      destruct (decide _) as [Heq|_]; [contradiction|reflexivity]. }
    split; [reflexivity|]. split; [reflexivity|].
    assert (Stream.good (Stream.setstate_failbit (output_stream_ w)) = false)
      as Hbad by (apply failbit_not_good; reflexivity).
    split; [exact Hbad|].
    intros ms. rewrite op_shl_many_not_good by exact Hbad. reflexivity.
  - intros Hg Heq. unfold op_shl. rewrite Hg.
    destruct (decide _) as [_|Hne]; [reflexivity|contradiction].
  - intros Hf ms. apply op_shl_many_not_good, failbit_not_good, Hf.
Qed.

End WriterFacts.

Lemma writer_new_emits_header_witness :
  Cmf.output Sample.writer_s6
  = [Byte.x63; Byte.x76; Byte.x63; Byte.x66;
     Byte.x00; Byte.x01; Byte.x00; Byte.x00;
     Byte.x02; Byte.x32; Byte.x30;
     Byte.x02;
     Byte.x02; Byte.x02; Byte.x73; Byte.x31; Byte.x02; Byte.x73; Byte.x32;
     Byte.x00].
Proof.
  assert (Stream.good Stream.empty = true) as Hg by reflexivity.
  assert (N.of_nat (length ["s1"; "s2"]%string) < u64_modulus) as Hb
    by reflexivity.
  destruct (writer_new_emits_header Varint.varint_encode Stream.empty
              "20" 2 ["s1"; "s2"]%string Hg Hb) as (Hout & _).
  unfold Sample.writer_s6. rewrite Hout. reflexivity.
Defined.

(** Scenario S6: the writer for two samples of ploidy 2 is given a marker
    with three haplotypes; the output is still the header alone and the
    stream has failed. *)
Lemma op_shl_correct_witness :
  Cmf.output (Cmf.op_shl Sample.write_position_only Sample.writer_s6
                         Sample.marker_three)
  = Cmf.output Sample.writer_s6
  /\ Stream.good (Cmf.output_stream_
                    (Cmf.op_shl Sample.write_position_only Sample.writer_s6
                                Sample.marker_three)) = false.
Proof.
  assert (Cmf.sample_size_ Sample.writer_s6
          * Cmf.ploidy_level_ Sample.writer_s6 < u64_modulus) as Hb
    by reflexivity.
  destruct (op_shl_correct Sample.write_position_only Sample.writer_s6
              Sample.marker_three Hb) as (_ & Hmis & _).
  destruct Hmis as (Hout & _ & Hbad & _).
  - reflexivity.
  - discriminate.
  - split; [exact Hout | exact Hbad].
Defined.

(** * Properties of [cvcf::marker::calculate_allele_frequency] *)

Section AlleleFrequencyFacts.

Import Cvcf.

Implicit Types (nz : list sparse_allele) (m : marker).

Lemma u64_increment a :
  a + 1 < u64_modulus -> (a + 1) mod u64_modulus = a + 1.
Proof. apply N.mod_small. Qed.

Lemma u64_decrement t :
  0 < t -> t < u64_modulus ->
  (t + (u64_modulus - 1)) mod u64_modulus = t - 1.
Proof.
  intros Hpos Hlt.
  replace (t + (u64_modulus - 1)) with (t - 1 + 1 * u64_modulus)
    by (unfold u64_modulus in *; lia).
  rewrite N.Div0.mod_add. apply N.mod_small. lia.
Qed.

Lemma flags_partition nz :
  (length (filter (fun e => is_allele e = true) nz)
   + length (filter (fun e => is_allele e = false) nz) = length nz)%nat.
Proof.
  induction nz as [|e rest IH]; [reflexivity|].
  destruct (is_allele e) eqn:He.
  - rewrite filter_cons_True, filter_cons_False by congruence.
    simpl. lia.
  - rewrite filter_cons_False, filter_cons_True by congruence.
    simpl. lia.
Qed.

(** The loop counts the alternate alleles up and the missing calls down,
    as long as neither counter wraps around. *)
Lemma count_loop_counts nz : forall allele_cnt total,
  allele_cnt + N.of_nat (length (filter (fun e => is_allele e = true) nz))
  < u64_modulus ->
  N.of_nat (length (filter (fun e => is_allele e = false) nz)) <= total ->
  total < u64_modulus ->
  count_loop nz allele_cnt total
  = (allele_cnt
     + N.of_nat (length (filter (fun e => is_allele e = true) nz)),
     total - N.of_nat (length (filter (fun e => is_allele e = false) nz))).
Proof.
  induction nz as [|e rest IH]; intros a t Ha Hm Ht.
  - simpl. f_equal; lia.
  - simpl count_loop. destruct (is_allele e) eqn:He.
    + rewrite filter_cons_True in * by congruence.
      rewrite filter_cons_False in * by congruence.
      simpl length in *.
      rewrite u64_increment by lia. rewrite IH by lia. f_equal; lia.
    + rewrite filter_cons_False in * by congruence.
      rewrite filter_cons_True in * by congruence.
      simpl length in *.
      rewrite u64_decrement by lia. rewrite IH by lia. f_equal; lia.
Qed.

(** C5.  For a marker with no more stored entries than haplotypes,
    [calculate_allele_frequency] is the binary64 quotient of [A] by
    [haplotype_count - M], with [A] the number of stored entries flagged
    as alternate allele and [M] the number flagged as missing; when that
    denominator is zero the result is NaN. *)
Theorem allele_frequency_correct m :
  N.of_nat (length (non_zero_haplotypes_ m)) <= haplotype_count m ->
  calculate_allele_frequency m
  = PrimFloat.div (double_of_u64 (alt_count m))
                  (double_of_u64 (haplotype_count m - missing_count m))
  /\ (haplotype_count m - missing_count m = 0 ->
      PrimFloat.is_nan (calculate_allele_frequency m) = true).
Proof.
  intros Hinv.
  pose proof (flags_partition (non_zero_haplotypes_ m)) as Hpart.
  assert (haplotype_count m < u64_modulus) as Hlt.
  { unfold haplotype_count. apply N.mod_lt. discriminate. }
  assert (calculate_allele_frequency m
          = PrimFloat.div (double_of_u64 (alt_count m))
              (double_of_u64 (haplotype_count m - missing_count m))) as Heq.
  { unfold calculate_allele_frequency.
    rewrite count_loop_counts by (unfold alt_count, missing_count in *; lia).
    reflexivity. }
  split; [exact Heq|].
  intros Hzero. rewrite Heq, Hzero.
  assert (alt_count m = 0) as ->
      by (unfold alt_count, missing_count in *; lia).
  vm_compute. reflexivity.
Qed.

End AlleleFrequencyFacts.

Lemma allele_frequency_correct_witness :
  PrimFloat.is_nan (Cvcf.calculate_allele_frequency Sample.cvcf_all_missing)
  = true.
Proof.
  assert (N.of_nat (length (Cvcf.non_zero_haplotypes_ Sample.cvcf_all_missing))
          <= Cvcf.haplotype_count Sample.cvcf_all_missing) as Hinv
    by (vm_compute; discriminate).
  destruct (allele_frequency_correct Sample.cvcf_all_missing Hinv)
    as [_ Hnan].
  apply Hnan. reflexivity.
Defined.

(** Scenario S3: one alternate allele and one missing call among six
    haplotypes give the frequency 1 / (6 - 1), the binary64 number nearest
    to 0.2. *)
Example allele_frequency_s3 :
  Cvcf.calculate_allele_frequency Sample.cvcf_s3
  = 0x1.999999999999ap-3%float.
Proof. vm_compute. reflexivity. Qed.

(** Scenario S1 for the varint model: 0, 127 and 128. *)
Example varint_s1 :
  Varint.varint_encode 0 = [Byte.x00]
  /\ Varint.varint_encode 127 = [Byte.x7f]
  /\ Varint.varint_encode 128 = [Byte.x80; Byte.x01].
Proof. repeat split. Qed.

(** * More on [compressed_vector]: construction, reads after writes *)

Section CompressedVectorMoreFacts.

Context {T : Type} `{EqDecision T}.
Variable zero : T.

Implicit Types (v a b : compressed_vector T) (pos i j o : N) (k : nat).

(** ** Reading through the stored entries *)

Lemma elem_of_entries v o (x : T) :
  (o, x) ∈ entries v
  <-> exists k, offsets_ v !! k = Some o /\ values_ v !! k = Some x.
Proof.
  unfold entries. rewrite list_elem_of_lookup. split.
  - intros (k & Hk).
    apply lookup_zip_with_Some in Hk as (o' & x' & [= <- <-] & Ho & Hx).
    eauto.
  - intros (k & Ho & Hx). exists k.
    apply lookup_zip_with_Some. eauto.
Qed.

Lemma get_entry v o (x : T) :
  ascending (offsets_ v) -> (o, x) ∈ entries v -> get zero v o = x.
Proof.
  intros Hs Hin. apply elem_of_entries in Hin as (k & Ho & Hx).
  eapply get_stored; eauto.
Qed.

Lemma stored_entry v o :
  length (offsets_ v) = length (values_ v) ->
  o ∈ offsets_ v -> exists x : T, (o, x) ∈ entries v.
Proof.
  intros Hl Hin. apply list_elem_of_lookup_1 in Hin as (k & Hk).
  destruct (values_ v !! k) as [x|] eqn:Hx.
  - exists x. apply elem_of_entries. eauto.
  - apply lookup_ge_None in Hx. apply lookup_lt_Some in Hk. lia.
Qed.

Lemma entry_offset v o (x : T) : (o, x) ∈ entries v -> o ∈ offsets_ v.
Proof.
  intros Hin. apply elem_of_entries in Hin as (k & Ho & _).
  eapply list_elem_of_lookup_2. exact Ho.
Qed.

Lemma elem_of_vec_insert {A} k (y e : A) (l : list A) :
  e ∈ Std.vec_insert k y l <-> e = y \/ e ∈ l.
Proof.
  unfold Std.vec_insert. rewrite elem_of_app, elem_of_cons.
  pose proof (take_drop k l) as Htd. split.
  - intros [Hin|[->|Hin]]; [right|left; reflexivity|right];
      rewrite <- Htd; apply elem_of_app; auto.
  - intros [->|Hin]; [auto|].
    rewrite <- Htd in Hin. apply elem_of_app in Hin. tauto.
Qed.

(** ** The constructor *)

(** X1.  [compressed_vector(sz)] gives the empty vector of logical size
    [sz], whatever value the uninitialised member [size_] holds when the
    constructor calls [resize]. *)
Theorem construct_empty (indeterminate sz : N) :
  construct zero indeterminate sz
  = {| values_ := []; offsets_ := []; size_ := sz |}.
Proof.
  unfold construct, resize. simpl.
  destruct (sz =? 0); [reflexivity|].
  destruct (sz <? indeterminate); [reflexivity|].
  destruct (decide (zero = zero)); [reflexivity|congruence].
Qed.

(** ** Assignment from a dense range *)

Lemma assign_dense_loop_values (input : list T) : forall idx vals offs,
  fst (assign_dense_loop zero input idx vals offs)
  = vals ++ filter (fun x => x <> zero) input.
Proof.
  induction input as [|x rest IH]; intros idx vals offs; simpl.
  - rewrite app_nil_r. reflexivity.
  - destruct (decide (x = zero)) as [Hx|Hx].
    + rewrite IH. rewrite filter_cons_False by tauto. reflexivity.
    + rewrite IH. rewrite filter_cons_True by assumption.
      unfold Std.emplace_back. rewrite <- app_assoc. reflexivity.
Qed.

Lemma assign_dense_loop_entries (input : list T) : forall idx vals offs,
  exists vs os,
    assign_dense_loop zero input idx vals offs = (vals ++ vs, offs ++ os)
    /\ length os = length vs
    /\ ascending os
    /\ (forall o x,
          (o, x) ∈ zip os vs
          <-> exists n, input !! n = Some x /\ o = idx + N.of_nat n
                        /\ x <> zero).
Proof.
  induction input as [|y rest IH]; intros idx vals offs; simpl.
  - exists [], []. rewrite !app_nil_r.
    split; [reflexivity|]. split; [reflexivity|]. split; [constructor|].
    intros o x. simpl. split.
    + intros Hin. inversion Hin.
    + intros (n & Hn & _). rewrite lookup_nil in Hn. discriminate.
  - destruct (decide (y = zero)) as [Hy|Hy].
    + destruct (IH (idx + 1) vals offs) as (vs & os & -> & Hl & Hs & Hin).
      exists vs, os. repeat split; try assumption.
      * intros Hox. apply Hin in Hox as (n & Hn & -> & Hx).
        exists (S n). simpl. repeat split; [assumption|lia|assumption].
      * intros (n & Hn & -> & Hx). apply Hin.
        destruct n as [|n]; simpl in Hn; [congruence|].
        exists n. repeat split; [assumption|lia|assumption].
    + destruct (IH (idx + 1) (Std.emplace_back y vals)
                   (Std.emplace_back idx offs))
        as (vs & os & -> & Hl & Hs & Hin).
      exists (y :: vs), (idx :: os). unfold Std.emplace_back.
      rewrite <- !app_assoc. simpl.
      split; [reflexivity|]. split; [f_equal; assumption|]. split.
      * apply ascending_cons. split; [|assumption].
        apply Forall_forall. intros o Ho.
        apply list_elem_of_lookup_1 in Ho as (k & Hk).
        destruct (vs !! k) as [x|] eqn:Hx.
        2:{ apply lookup_ge_None in Hx. apply lookup_lt_Some in Hk. lia. }
        assert ((o, x) ∈ zip os vs) as Hox.
        { apply list_elem_of_lookup. exists k.
          apply lookup_zip_with_Some. eauto. }
        apply Hin in Hox as (n & _ & -> & _). lia.
      * intros o x. rewrite elem_of_cons. split.
        -- intros [[= -> ->]|Hox].
           ++ exists 0%nat. simpl. repeat split; [lia|assumption].
           ++ apply Hin in Hox as (n & Hn & -> & Hx).
              exists (S n). simpl. repeat split; [assumption|lia|assumption].
        -- intros (n & Hn & -> & Hx).
           destruct n as [|n]; simpl in Hn.
           ++ left. injection Hn as ->. f_equal. lia.
           ++ right. apply Hin. exists n.
              repeat split; [assumption|lia|assumption].
Qed.

(** X2.  Reading back what [assign] took from a dense range: the logical
    size is the length of the range, and the const element access at any
    index [i] returns the [i]-th element of the range, or [T()] when [i]
    is past its end. *)
Theorem assign_dense_read_back v (input : list T) i :
  size_ (assign_dense zero v input) = N.of_nat (length input)
  /\ get zero (assign_dense zero v input) i = nth (N.to_nat i) input zero.
Proof.
  split; [reflexivity|].
  destruct (assign_dense_loop_entries input 0 [] [])
    as (vs & os & Heq & Hl & Hs & Hin).
  set (w := assign_dense zero v input).
  assert (values_ w = vs /\ offsets_ w = os) as [Hv Ho].
  { subst w. unfold assign_dense. rewrite Heq. auto. }
  assert (ascending (offsets_ w)) as Hsw by (rewrite Ho; assumption).
  assert (forall o x, (o, x) ∈ entries w
                      <-> input !! N.to_nat o = Some x /\ x <> zero) as Hent.
  { intros o x. unfold entries. rewrite Hv, Ho, Hin. split.
    - intros (n & Hn & -> & Hx).
      replace (N.to_nat (0 + N.of_nat n)) with n by lia. auto.
    - intros [Hn Hx]. exists (N.to_nat o). repeat split; [assumption|lia|assumption]. }
  rewrite nth_lookup.
  destruct (input !! N.to_nat i) as [x|] eqn:Hx; simpl.
  - destruct (decide (x = zero)) as [->|Hne].
    + apply get_absent. intros Hi.
      destruct (stored_entry w i) as (y & Hy);
        [rewrite Hv, Ho; assumption|assumption|].
      apply Hent in Hy as [Hy Hny]. congruence.
    + apply get_entry; [assumption|]. apply Hent. auto.
  - apply get_absent. intros Hi.
    destruct (stored_entry w i) as (y & Hy);
      [rewrite Hv, Ho; assumption|assumption|].
    apply Hent in Hy as [Hy _]. congruence.
Qed.

(** X3.  [assign] from a dense range stores exactly the elements that
    differ from [T()], in their order; no default value is ever stored. *)
Theorem assign_dense_stores_non_default v (input : list T) :
  values_ (assign_dense zero v input) = filter (fun x => x <> zero) input
  /\ Forall (fun x => x <> zero) (values_ (assign_dense zero v input)).
Proof.
  assert (values_ (assign_dense zero v input)
          = filter (fun x => x <> zero) input) as Heq.
  { unfold assign_dense. simpl. rewrite assign_dense_loop_values.
    reflexivity. }
  split; [exact Heq|]. rewrite Heq.
  apply Forall_forall. intros x Hx.
  apply list_elem_of_filter in Hx as [Hx _]. exact Hx.
Qed.

(** ** Reads after the mutable element access *)

(** What the mutable access leaves behind: ascending offsets, as many
    values as offsets, the offset [i] at the returned slot, and the old
    entries, with [(i, T())] added when [i] was not stored. *)
Lemma subscript_result v i :
  ascending (offsets_ v) ->
  length (offsets_ v) = length (values_ v) ->
  let slot := fst (subscript zero v i) in
  let v' := snd (subscript zero v i) in
  ascending (offsets_ v')
  /\ length (offsets_ v') = length (values_ v')
  /\ offsets_ v' !! slot = Some i
  /\ (forall e, e ∈ entries v'
                <-> e ∈ entries v \/ ((i ∉ offsets_ v) /\ e = (i, zero))).
Proof.
  intros Hs Hl slot v'. subst slot v'.
  pose proof (lower_bound_le (offsets_ v) i Hs) as Hle.
  destruct (subscript_cases zero v i Hs Hl) as [[Hi ->]|[Hi ->]]; simpl.
  - split; [assumption|]. split; [assumption|]. split.
    + apply list_elem_of_lookup_1 in Hi as [k Hk].
      rewrite (lower_bound_found _ _ _ Hs Hk). assumption.
    + intros e. tauto.
  - split; [apply ascending_insert; assumption|]. split.
    { rewrite !length_vec_insert by lia. lia. }
    split; [apply lookup_vec_insert; assumption|].
    intros e. unfold entries at 1. simpl.
    rewrite entries_insert by assumption.
    rewrite elem_of_vec_insert. tauto.
Qed.

Lemma subscript_reads v i j :
  ascending (offsets_ v) ->
  length (offsets_ v) = length (values_ v) ->
  get zero (snd (subscript zero v i)) j = get zero v j.
Proof.
  intros Hs Hl.
  destruct (subscript_result v i Hs Hl) as (Hs' & Hl' & _ & Hent).
  set (v' := snd (subscript zero v i)) in *.
  destruct (decide (j ∈ offsets_ v)) as [Hj|Hj].
  - destruct (stored_entry v j Hl Hj) as (x & Hx).
    rewrite (get_entry v j x Hs Hx).
    apply get_entry; [assumption|]. apply Hent. auto.
  - rewrite (get_absent zero v j Hj).
    destruct (decide (j = i)) as [->|Hne].
    + apply get_entry; [assumption|]. apply Hent. auto.
    + apply get_absent. intros Hin.
      destruct (stored_entry v' j Hl' Hin) as (x & Hx).
      apply Hent in Hx as [Hx|[_ [= ? _]]]; [|contradiction].
      apply Hj. eapply entry_offset. exact Hx.
Qed.

(** X4.  The statement [v[i] = x] followed by const reads: on a vector with
    ascending offsets and as many values as offsets, index [i] then reads
    [x] and every other index reads what it read before. *)
Theorem assign_at_read v i (x : T) j :
  ascending (offsets_ v) ->
  length (offsets_ v) = length (values_ v) ->
  get zero (assign_at zero v i x) j
  = if decide (j = i) then x else get zero v j.
Proof.
  intros Hs Hl.
  destruct (subscript_result v i Hs Hl) as (Hs' & Hl' & Hslot & _).
  rewrite <- (subscript_reads v i j Hs Hl).
  set (slot := fst (subscript zero v i)) in *.
  set (v' := snd (subscript zero v i)) in *.
  unfold assign_at. fold slot. fold v'.
  pose proof (lookup_lt_Some _ _ _ Hslot) as Hlt.
  destruct (decide (j = i)) as [->|Hne].
  - apply (get_stored zero _ i slot x); simpl; [assumption..|].
    apply list_lookup_insert_eq. lia.
  - unfold get. simpl.
    destruct (offsets_ v' !! Std.lower_bound (offsets_ v') j)
      as [o|] eqn:Ho; [|reflexivity].
    destruct (decide (o = j)) as [->|]; [|reflexivity].
    rewrite !nth_lookup. rewrite list_lookup_insert_ne; [reflexivity|].
    intros Heq. rewrite <- Heq in Ho. congruence.
Qed.

(** X5.  The mutable element access changes no value that the const
    access reads, even when it inserts an entry; and a second access at
    the same index returns the same slot and leaves the vector as the
    first one left it. *)
Theorem subscript_keeps_reads v i :
  ascending (offsets_ v) ->
  length (offsets_ v) = length (values_ v) ->
  (forall j, get zero (snd (subscript zero v i)) j = get zero v j)
  /\ subscript zero (snd (subscript zero v i)) i = subscript zero v i.
Proof.
  intros Hs Hl. split.
  - intros j. apply subscript_reads; assumption.
  - destruct (subscript_result v i Hs Hl) as (Hs' & Hl' & Hslot & _).
    set (slot := fst (subscript zero v i)) in *.
    set (v' := snd (subscript zero v i)) in *.
    destruct (subscript_cases zero v' i Hs' Hl') as [[_ ->]|[Hni _]].
    + rewrite (lower_bound_found _ _ _ Hs' Hslot).
      subst slot v'. destruct (subscript zero v i). reflexivity.
    + exfalso. apply Hni. eapply list_elem_of_lookup_2. exact Hslot.
Qed.

(** ** Reads after [resize] *)

(** X6.  After [resize(n, fill)] with [n = 0], [n < size] or the default
    fill value, on a vector satisfying the invariant, every index below
    [n] reads what it read before and every other index reads [T()]. *)
Theorem resize_read v sz (val : T) i :
  invariant v ->
  sz = 0 \/ sz < size_ v \/ val = zero ->
  get zero (resize zero v sz val) i
  = if i <? sz then get zero v i else zero.
Proof.
  intros Hinv Hcase.
  pose proof (resize_invariant zero v sz val Hinv Hcase)
    as (Hs' & Hb' & Hl').
  destruct Hinv as (Hs & Hb & Hl).
  rewrite resize_size in Hb'.
  assert (sz <= i -> get zero (resize zero v sz val) i = zero) as Hhigh.
  { intros Hge. apply get_absent. intros Hin.
    rewrite Forall_forall in Hb'. specialize (Hb' _ Hin). lia. }
  destruct (N.ltb_spec i sz) as [Hlt|Hge]; [|auto].
  destruct (N.eq_dec sz 0) as [->|Hnz]; [lia|].
  destruct (N.ltb_spec sz (size_ v)) as [Hshrink|Hgrow].
  - destruct (resize_shrink zero v sz val (conj Hs (conj Hb Hl)) Hnz Hshrink)
      as [Hent _].
    destruct (decide (i ∈ offsets_ v)) as [Hi|Hi].
    + destruct (stored_entry v i Hl Hi) as (x & Hx).
      rewrite (get_entry v i x Hs Hx).
      apply get_entry; [assumption|]. rewrite Hent.
      apply list_elem_of_filter. auto.
    + rewrite (get_absent zero v i Hi). apply get_absent. intros Hin.
      destruct (stored_entry _ i Hl' Hin) as (x & Hx).
      rewrite Hent in Hx. apply list_elem_of_filter in Hx as [_ Hx].
      apply Hi. eapply entry_offset. exact Hx.
  - assert (val = zero) as -> by (destruct Hcase as [?|[?|?]]; [lia|lia|auto]).
    rewrite resize_default_fill by assumption. reflexivity.
Qed.

(** ** Growing a fully dense vector *)

Lemma length_indices n : length (indices n) = N.to_nat n.
Proof. unfold indices. rewrite length_map, length_seq. reflexivity. Qed.

Lemma fill_offsets_tail cnt : forall i (pre rest : list N),
  length pre = N.to_nat i -> length rest = cnt ->
  fill_offsets cnt i (pre ++ rest)
  = pre ++ map N.of_nat (seq (N.to_nat i) cnt).
Proof.
  induction cnt as [|cnt IH]; intros i pre rest Hp Hr; simpl.
  - destruct rest; [reflexivity|discriminate].
  - destruct rest as [|r rest]; [discriminate|]. simpl in Hr.
    assert (<[N.to_nat i := i]> (pre ++ r :: rest) = (pre ++ [i]) ++ rest)
      as ->.
    { rewrite insert_app_r_alt by lia. rewrite Hp, Nat.sub_diag. simpl.
      rewrite <- app_assoc. reflexivity. }
    rewrite (IH (i + 1) (pre ++ [i]) rest).
    + rewrite <- app_assoc. simpl. rewrite N2Nat.id.
      replace (N.to_nat (i + 1)) with (S (N.to_nat i)) by lia.
      reflexivity.
    + rewrite length_app. simpl. lia.
    + lia.
Qed.

(** X7.  On a vector that stores every index (offsets [0 .. size-1], one
    value each), [resize(n, fill)] with [n >= size], [n > 0] and a fill
    value other than [T()] appends [fill] for each index from [size] to
    [n-1]: the result stores every index below [n] and satisfies the
    invariant. *)
Theorem resize_fill_dense v sz (val : T) :
  offsets_ v = indices (size_ v) ->
  length (values_ v) = length (offsets_ v) ->
  size_ v <= sz -> sz <> 0 -> val <> zero ->
  resize zero v sz val
  = {| values_ := values_ v
                  ++ replicate (N.to_nat sz - N.to_nat (size_ v)) val;
       offsets_ := indices sz;
       size_ := sz |}
  /\ invariant (resize zero v sz val).
Proof.
  intros Hoff Hlen Hge Hnz Hval.
  assert (length (values_ v) = N.to_nat (size_ v)) as Hlv
      by (rewrite Hlen, Hoff; apply length_indices).
  assert (resize zero v sz val
          = {| values_ := values_ v
                          ++ replicate (N.to_nat sz - N.to_nat (size_ v)) val;
               offsets_ := indices sz;
               size_ := sz |}) as Heq.
  { unfold resize.
    destruct (N.eqb_spec sz 0) as [|_]; [contradiction|].
    destruct (N.ltb_spec sz (size_ v)) as [|_]; [lia|].
    destruct (decide (val = zero)) as [|_]; [contradiction|].
    f_equal.
    - rewrite resize_spec, take_ge by lia. rewrite Hlv. reflexivity.
    - rewrite resize_spec, take_ge by (rewrite <- Hlen; lia).
      rewrite fill_offsets_tail.
      + rewrite Hoff. unfold indices. rewrite <- map_app, <- seq_app.
        do 2 f_equal. lia.
      + rewrite <- Hlen. assumption.
      + rewrite length_replicate, <- Hlen, Hlv. lia. }
  split; [exact Heq|]. rewrite Heq. unfold invariant. simpl.
  split; [apply ascending_range|]. split.
  - apply Forall_forall. intros o Ho. apply elem_of_indices in Ho. exact Ho.
  - rewrite length_indices, length_app, length_replicate. lia.
Qed.

(** ** Iteration over the stored entries *)

Lemma traverse_from v : forall n it fuel,
  length (offsets_ v) = length (values_ v) ->
  (it + n = length (values_ v))%nat -> (n <= fuel)%nat ->
  traverse fuel v it (cv_end v) = Some (drop it (entries v)).
Proof.
  unfold cv_end.
  induction n as [|n IH]; intros it fuel Hl Hit Hf.
  - assert (it = length (values_ v)) as -> by lia.
    destruct fuel; simpl;
      (destruct (decide _) as [_|]; [|congruence]);
      rewrite drop_ge; try reflexivity;
      unfold entries; rewrite length_zip_with; lia.
  - destruct fuel as [|fuel]; [lia|]. simpl.
    destruct (decide (it = length (values_ v))) as [|_]; [lia|].
    unfold it_offset, it_deref.
    destruct (lookup_lt_is_Some_2 (offsets_ v) it) as [o Ho]; [lia|].
    destruct (lookup_lt_is_Some_2 (values_ v) it) as [x Hx]; [lia|].
    rewrite Ho, Hx. rewrite (IH (S it) fuel) by (assumption || lia).
    f_equal. symmetry. apply drop_S. unfold entries.
    apply lookup_zip_with_Some. eauto.
Qed.

(** X8.  Iterating a vector with as many offsets as values from [begin()]
    to [end()] terminates after [non_zero_size()] steps and yields the
    stored (offset, value) pairs in storage order. *)
Theorem traverse_entries v fuel :
  length (offsets_ v) = length (values_ v) ->
  (non_zero_size v <= fuel)%nat ->
  traverse fuel v (cv_begin v) (cv_end v) = Some (entries v)
  /\ length (entries v) = non_zero_size v.
Proof.
  intros Hl Hf. split.
  - rewrite (traverse_from v (length (values_ v)) (cv_begin v) fuel);
      [reflexivity|assumption|reflexivity|assumption].
  - unfold entries, non_zero_size. rewrite length_zip_with. lia.
Qed.

End CompressedVectorMoreFacts.

(** * More on the inner product: symmetry, and [dot_slow] *)

Section DotMoreFacts.

Context {T : Type} `{EqDecision T}.
Variable zero : T.
Variables add mul : T -> T -> T.

Implicit Types (v a b : compressed_vector T) (pos i j o : N) (k : nat).

Lemma fold_left_agree {A} (f g : T -> A -> T) (l : list A) :
  (forall r x, x ∈ l -> f r x = g r x) ->
  forall ret, fold_left f l ret = fold_left g l ret.
Proof.
  induction l as [|x l IH]; intros Hfg ret; [reflexivity|]. simpl.
  rewrite Hfg by (left). apply IH.
  intros r y Hy. apply Hfg. right. assumption.
Qed.

Lemma common_offsets_comm a b :
  ascending (offsets_ a) -> ascending (offsets_ b) ->
  common_offsets a b = common_offsets b a.
Proof.
  intros Hsa Hsb. unfold common_offsets.
  apply ascending_ext; try (apply ascending_filter; assumption).
  intros x. rewrite !list_elem_of_filter. tauto.
Qed.

Lemma dot_reference_comm a b ret :
  (forall x y, mul x y = mul y x) ->
  ascending (offsets_ a) -> ascending (offsets_ b) ->
  dot_reference zero add mul a b ret = dot_reference zero add mul b a ret.
Proof.
  intros Hcomm Hsa Hsb. unfold dot_reference.
  rewrite (common_offsets_comm a b Hsa Hsb).
  apply fold_left_agree. intros r x _. unfold product_at.
  rewrite Hcomm. reflexivity.
Qed.

(** X9.  With a commutative multiplication, [dot] does not depend on the
    order of its two operands (vectors with ascending offsets and as many
    values as offsets). *)
Theorem dot_comm a b :
  (forall x y, mul x y = mul y x) ->
  ascending (offsets_ a) -> ascending (offsets_ b) ->
  length (offsets_ a) = length (values_ a) ->
  length (offsets_ b) = length (values_ b) ->
  dot zero add mul a b = dot zero add mul b a.
Proof.
  intros Hcomm Hsa Hsb Hla Hlb. unfold dot.
  rewrite (dot_from_correct zero add mul a b zero Hsa Hsb Hla Hlb).
  rewrite (dot_from_correct zero add mul b a zero Hsb Hsa Hlb Hla).
  f_equal. apply dot_reference_comm; assumption.
Qed.

Lemma dot_slow_loop_drops cnt : forall (outer inner : compressed_vector T)
    it jt ret,
  dot_slow_loop zero add mul cnt false outer inner it jt ret = ret.
Proof.
  induction cnt as [|cnt IH]; intros outer inner it jt ret; simpl;
    [reflexivity|].
  destruct (offsets_ outer !! it); [|reflexivity].
  destruct (decide _); [reflexivity|].
  destruct (offsets_ inner !! _); [|apply IH].
  destruct (decide _); apply IH.
Qed.

(** X10.  When the logical size of the vector is smaller than that of the
    other, [dot_slow] walks both vectors but never adds a product: it
    returns the accumulator it was given. *)
Theorem dot_slow_smaller_size a b (ret : T) :
  size a < size b -> dot_slow zero add mul a b ret = ret.
Proof.
  intros Hlt. unfold dot_slow. apply N.ltb_lt in Hlt. rewrite Hlt.
  apply dot_slow_loop_drops.
Qed.

Lemma partition_point_ge l jt x :
  Forall (fun o => o < x) (take jt l) -> (jt <= length l)%nat ->
  (jt <= Std.partition_point l x)%nat.
Proof.
  revert jt. induction l as [|y l IH]; intros jt Hall Hjt; simpl in *.
  - lia.
  - destruct jt as [|jt]; [lia|]. simpl in Hall.
    apply Forall_cons in Hall as [Hy Hall].
    apply N.ltb_lt in Hy. rewrite Hy.
    specialize (IH jt Hall). lia.
Qed.

Lemma lower_bound_from_partition_point l jt x :
  ascending l -> (jt <= length l)%nat ->
  Forall (fun o => o < x) (take jt l) ->
  lower_bound_from l jt x = Std.partition_point l x.
Proof.
  intros Hs Hjt Hall. unfold lower_bound_from.
  pose proof (partition_point_ge l jt x Hall Hjt).
  pose proof (partition_point_le l x).
  apply lower_bound_loop_correct; [assumption|lia..].
Qed.

(** The accumulating loop adds up the products at the offsets of [outer],
    from position [it] on, that [inner] stores too; everything in front
    of [jt] in [inner] lies below what is left of [outer]. *)
Lemma dot_slow_loop_sums (outer inner : compressed_vector T) :
  ascending (offsets_ outer) -> ascending (offsets_ inner) ->
  length (offsets_ outer) = length (values_ outer) ->
  length (offsets_ inner) = length (values_ inner) ->
  forall cnt it jt ret,
    (length (offsets_ outer) - it <= cnt)%nat ->
    (jt <= length (offsets_ inner))%nat ->
    (forall x y, x ∈ take jt (offsets_ inner) ->
                 y ∈ drop it (offsets_ outer) -> x < y) ->
    dot_slow_loop zero add mul cnt true outer inner it jt ret
    = fold_left (product_at zero add mul outer inner)
        (filter (fun o => o ∈ offsets_ inner) (drop it (offsets_ outer)))
        ret.
Proof.
  intros Hso Hsi Hlo Hli.
  induction cnt as [|cnt IH]; intros it jt ret Hcnt Hjt Hsep; simpl.
  - rewrite drop_ge by lia. reflexivity.
  - destruct (offsets_ outer !! it) as [oi|] eqn:Hi.
    2:{ rewrite drop_ge by (apply lookup_ge_None; assumption).
        reflexivity. }
    destruct (ascending_suffix _ _ _ Hso Hi) as [Hd Htail].
    rewrite Forall_forall in Htail.
    destruct (decide (jt = length (offsets_ inner))) as [Hend|Hne].
    { rewrite filter_none; [reflexivity|].
      apply Forall_forall. intros y Hy Hin.
      assert (y < y); [|lia]. apply Hsep; [|assumption].
      rewrite take_ge by lia. assumption. }
    assert (Forall (fun o => o < oi) (take jt (offsets_ inner))) as Hbelow.
    { apply Forall_forall. intros x Hx. apply Hsep; [assumption|].
      rewrite Hd. left. }
    rewrite (lower_bound_from_partition_point _ _ _ Hsi Hjt Hbelow).
    set (p := Std.partition_point (offsets_ inner) oi).
    pose proof (partition_point_before (offsets_ inner) oi) as Hpre.
    fold p in Hpre. rewrite Forall_forall in Hpre.
    rewrite Hd.
    assert (forall x y, x ∈ take p (offsets_ inner) ->
                        y ∈ drop (S it) (offsets_ outer) -> x < y) as Hsep1.
    { intros x y Hx Hy. specialize (Hpre _ Hx). specialize (Htail _ Hy).
      lia. }
    assert (offsets_ inner !! p <> Some oi ->
            dot_slow_loop zero add mul cnt true outer inner (S it) p ret
            = fold_left (product_at zero add mul outer inner)
                (filter (fun o => o ∈ offsets_ inner)
                        (oi :: drop (S it) (offsets_ outer))) ret) as Hmiss.
    { intros Hno. rewrite filter_cons_False.
      - apply IH; [lia|apply partition_point_le|exact Hsep1].
      - intros Hin. apply list_elem_of_lookup_1 in Hin as [q Hq].
        apply Hno. unfold p.
        rewrite (partition_point_found _ _ _ Hsi Hq). assumption. }
    destruct (offsets_ inner !! p) as [oj|] eqn:Hp.
    + destruct (decide (oj = oi)) as [->|Hneq].
      * rewrite filter_cons_True
          by (eapply list_elem_of_lookup_2; exact Hp).
        simpl. rewrite (IH (S it) (S p)).
        -- f_equal. unfold product_at.
           rewrite (get_at_index zero outer it oi Hso Hlo Hi).
           rewrite (get_at_index zero inner p oi Hsi Hli Hp).
           reflexivity.
        -- lia.
        -- apply lookup_lt_Some in Hp. lia.
        -- intros x y Hx Hy. specialize (Htail _ Hy).
           apply elem_of_take in Hx as (q & Hq & Hlt).
           destruct (decide (q = p)) as [->|Hqp].
           ++ rewrite Hp in Hq. injection Hq as ->. assumption.
           ++ assert (x < oi); [|lia]. apply Hpre.
              apply elem_of_take. exists q. split; [assumption|lia].
      * apply Hmiss. congruence.
    + apply Hmiss. congruence.
Qed.

(** X11.  When the logical size of the vector is not smaller than that of
    the other (both with ascending offsets and as many values as
    offsets), [dot_slow] adds to its accumulator, in ascending offset
    order, the products [other value * own value] at the offsets stored
    in both: it returns what [other.dot(self, ret)] returns, and what
    [dot(other, ret)] returns when the multiplication is commutative. *)
Theorem dot_slow_accumulates a b (ret : T) :
  size b <= size a ->
  ascending (offsets_ a) -> ascending (offsets_ b) ->
  length (offsets_ a) = length (values_ a) ->
  length (offsets_ b) = length (values_ b) ->
  dot_slow zero add mul a b ret = dot_reference zero add mul b a ret
  /\ dot_from zero add mul b a ret = Some (dot_slow zero add mul a b ret)
  /\ ((forall x y, mul x y = mul y x) ->
      dot_from zero add mul a b ret = Some (dot_slow zero add mul a b ret)).
Proof.
  intros Hsz Hsa Hsb Hla Hlb.
  assert (dot_slow zero add mul a b ret = dot_reference zero add mul b a ret)
    as Heq.
  { unfold dot_slow. apply N.ltb_ge in Hsz. rewrite Hsz.
    rewrite (dot_slow_loop_sums b a Hsb Hsa Hlb Hla); [reflexivity|lia|lia|].
    intros x y Hx. simpl in Hx. inversion Hx. }
  split; [exact Heq|]. split.
  - rewrite Heq. apply dot_from_correct; assumption.
  - intros Hcomm. rewrite Heq.
    rewrite (dot_from_correct zero add mul a b ret Hsa Hsb Hla Hlb).
    f_equal. apply dot_reference_comm; assumption.
Qed.

End DotMoreFacts.


Lemma assign_at_read_witness :
  get 0%Z (assign_at 0%Z Sample.cv_one 2 9%Z) 2 = 9%Z
  /\ get 0%Z (assign_at 0%Z Sample.cv_one 2 9%Z) 1 = 5%Z.
Proof.
  assert (ascending (offsets_ Sample.cv_one)) as Hs.
  { unfold ascending. simpl. repeat constructor. }
  split.
  - exact (assign_at_read 0%Z Sample.cv_one 2 9%Z 2 Hs eq_refl).
  - exact (assign_at_read 0%Z Sample.cv_one 2 9%Z 1 Hs eq_refl).
Defined.

Lemma subscript_keeps_reads_witness :
  get 0%Z (snd (subscript 0%Z Sample.cv_one 0)) 0 = 0%Z
  /\ non_zero_size (snd (subscript 0%Z Sample.cv_one 0)) = 2%nat.
Proof.
  assert (ascending (offsets_ Sample.cv_one)) as Hs.
  { unfold ascending. simpl. repeat constructor. }
  destruct (subscript_keeps_reads 0%Z Sample.cv_one 0 Hs eq_refl)
    as [Hreads _].
  split; [exact (Hreads 0)|reflexivity].
Defined.

Lemma resize_read_witness :
  get 0%Z (resize 0%Z Sample.cv_two 2 7%Z) 1 = 2%Z
  /\ get 0%Z (resize 0%Z Sample.cv_two 2 7%Z) 2 = 0%Z.
Proof.
  assert (invariant Sample.cv_two) as Hinv.
  { unfold invariant, ascending. simpl.
    split; [|split]; [repeat constructor..|reflexivity]. }
  assert (2 = 0 \/ 2 < size_ Sample.cv_two \/ 7%Z = 0%Z) as Hcase.
  { right. left. reflexivity. }
  split.
  - exact (resize_read 0%Z Sample.cv_two 2 7%Z 1 Hinv Hcase).
  - exact (resize_read 0%Z Sample.cv_two 2 7%Z 2 Hinv Hcase).
Defined.

Lemma resize_fill_dense_witness :
  resize 0%Z Sample.cv_full 5 9%Z
  = {| values_ := [5; 6; 7; 9; 9]%Z; offsets_ := [0; 1; 2; 3; 4];
       size_ := 5 |}.
Proof.
  assert (size_ Sample.cv_full <= 5) as Hge by (simpl; lia).
  assert (5 <> 0) as Hnz by discriminate.
  assert (9%Z <> 0%Z) as Hval by discriminate.
  destruct (resize_fill_dense 0%Z Sample.cv_full 5 9%Z eq_refl eq_refl
              Hge Hnz Hval) as [Heq _].
  exact Heq.
Defined.

Lemma traverse_entries_witness :
  traverse 2 Sample.cv_two (cv_begin Sample.cv_two) (cv_end Sample.cv_two)
  = Some [(1, 2%Z); (2, 4%Z)].
Proof.
  assert (non_zero_size Sample.cv_two <= 2)%nat as Hf
    by (unfold non_zero_size; simpl; lia).
  destruct (traverse_entries Sample.cv_two 2 eq_refl Hf) as [Heq _].
  exact Heq.
Defined.

Lemma dot_comm_witness :
  dot 0%Z Z.add Z.mul Sample.cv_one Sample.cv_two
  = dot 0%Z Z.add Z.mul Sample.cv_two Sample.cv_one.
Proof.
  assert (ascending (offsets_ Sample.cv_one)) as Hs1.
  { unfold ascending. simpl. repeat constructor. }
  assert (ascending (offsets_ Sample.cv_two)) as Hs2.
  { unfold ascending. simpl. repeat constructor. }
  exact (dot_comm 0%Z Z.add Z.mul Sample.cv_one Sample.cv_two
           Z.mul_comm Hs1 Hs2 eq_refl eq_refl).
Defined.

Lemma dot_slow_smaller_size_witness :
  dot_slow 0%Z Z.add Z.mul Sample.cv_small Sample.cv_one 0%Z = 0%Z
  /\ dot 0%Z Z.add Z.mul Sample.cv_small Sample.cv_one = Some 15%Z.
Proof.
  assert (size Sample.cv_small < size Sample.cv_one) as Hlt by reflexivity.
  split.
  - exact (dot_slow_smaller_size 0%Z Z.add Z.mul
             Sample.cv_small Sample.cv_one 0%Z Hlt).
  - reflexivity.
Defined.

Lemma dot_slow_accumulates_witness :
  dot_slow 0%Z Z.add Z.mul Sample.cv_one Sample.cv_small 0%Z = 15%Z.
Proof.
  assert (size Sample.cv_small <= size Sample.cv_one) as Hsz
    by (simpl; lia).
  assert (ascending (offsets_ Sample.cv_one)) as Hs1.
  { unfold ascending. simpl. repeat constructor. }
  assert (ascending (offsets_ Sample.cv_small)) as Hs2.
  { unfold ascending. simpl. repeat constructor. }
  destruct (dot_slow_accumulates 0%Z Z.add Z.mul Sample.cv_one
              Sample.cv_small 0%Z Hsz Hs1 Hs2 eq_refl eq_refl)
    as [Heq _].
  rewrite Heq. reflexivity.
Defined.


(** * More on [cmf::marker]: dense iteration over any marker *)

Section MarkerMoreFacts.

Import Cmf.

Implicit Types (nz pre rest vec : list sparse_vector_allele) (off i : N)
         (m : marker).

Lemma u64_next (a : N) (n : nat) :
  a + N.of_nat (S n) < u64_modulus -> (a + 1) mod u64_modulus = a + 1.
Proof. intros Hb. apply N.mod_small. lia. Qed.

(** The cursor reaches [last] after as many steps as the two dense
    offsets are apart, whatever the entries are. *)
Lemma collect_length vec : forall n it last fuel,
  i_ it + N.of_nat n = i_ last -> i_ last < u64_modulus ->
  (n <= fuel)%nat ->
  exists l, collect fuel vec it last = Some l /\ length l = n.
Proof.
  induction n as [|n IH]; intros it last fuel Hi Hb Hf.
  - exists []. split; [|reflexivity].
    destruct fuel; simpl; unfold it_neq;
      replace (i_ it) with (i_ last) by lia;
      rewrite N.eqb_refl; reflexivity.
  - destruct fuel as [|fuel]; [lia|]. simpl. unfold it_neq at 1.
    destruct (N.eqb_spec (i_ it) (i_ last)) as [Heq|_]; [lia|]. simpl.
    destruct (IH (increment vec it) last fuel) as (l & -> & Hl).
    + simpl. rewrite (u64_next (i_ it) n) by lia. lia.
    + assumption.
    + lia.
    + eexists. split; [reflexivity|]. simpl. lia.
Qed.

(** X12.  Dense iteration from [begin()] to [end()] terminates and yields
    exactly [haplotype_count()] statuses for every marker, whatever its
    stored entries are (unordered, repeated or out of range). *)
Theorem dense_view_length m fuel :
  haplotype_count m < u64_modulus ->
  (N.to_nat (haplotype_count m) <= fuel)%nat ->
  exists l, dense_view fuel m = Some l
            /\ length l = N.to_nat (haplotype_count m).
Proof.
  intros Hb Hf. unfold dense_view.
  apply collect_length; [|assumption..].
  unfold haplotype_count in *. simpl. lia.
Qed.

(** ** What the cursor reads when the entries are in ascending order *)

Lemma dense_status_cons_ne (e : sparse_vector_allele) rest i :
  offset e <> i -> dense_status (e :: rest) i = dense_status rest i.
Proof.
  intros Hne. unfold dense_status. simpl.
  destruct (decide (offset e = i)); [contradiction|].
  destruct (list_find _ rest) as [[k e']|]; reflexivity.
Qed.

Lemma dense_status_cons_eq (e : sparse_vector_allele) rest :
  dense_status (e :: rest) (offset e)
  = if decide (status e = is_missing) then is_missing else has_alt.
Proof.
  unfold dense_status. simpl.
  destruct (decide (offset e = offset e)); [reflexivity|congruence].
Qed.

Lemma dense_status_absent rest i :
  Forall (fun e => offset e <> i) rest -> dense_status rest i = has_ref.
Proof.
  induction 1 as [|e rest He _ IH]; [reflexivity|].
  rewrite dense_status_cons_ne by assumption. exact IH.
Qed.

Lemma offsets_cons (e : sparse_vector_allele) rest :
  ascending (map offset (e :: rest))
  <-> Forall (fun e' => offset e < offset e') rest
      /\ ascending (map offset rest).
Proof.
  simpl. rewrite ascending_cons. rewrite Forall_map. reflexivity.
Qed.

Lemma dense_offsets_S off n :
  dense_offsets off (S n) = off :: dense_offsets (off + 1) n.
Proof.
  unfold dense_offsets. simpl. f_equal; [lia|].
  rewrite <- seq_shift, map_map. apply map_ext. intros k. lia.
Qed.

Lemma dense_offsets_ge off n i : In i (dense_offsets off n) -> off <= i.
Proof.
  unfold dense_offsets. rewrite in_map_iff. intros (k & <- & _). lia.
Qed.

(** Walking the cursor over ascending entries [rest], none of them below
    the dense offset [off], reads [dense_status rest] at each offset. *)
Lemma collect_ascending : forall n off pre rest vec fuel last,
  vec = pre ++ rest ->
  ascending (map offset rest) ->
  Forall (fun e => off <= offset e) rest ->
  i_ last = off + N.of_nat n -> i_ last < u64_modulus ->
  (n <= fuel)%nat ->
  collect fuel vec
    {| ptr_ := length pre; ptr_end_ := length vec; i_ := off |} last
  = Some (map (dense_status rest) (dense_offsets off n)).
Proof.
  induction n as [|n IH]; intros off pre rest vec fuel last Hv Hs Hge Hl Hb Hf.
  - destruct fuel; simpl; unfold it_neq; simpl;
      replace (i_ last) with off by lia;
      rewrite N.eqb_refl; reflexivity.
  - destruct fuel as [|fuel]; [lia|].
    rewrite dense_offsets_S. simpl collect. unfold it_neq at 1. simpl i_ at 1.
    destruct (N.eqb_spec off (i_ last)) as [Heq|_]; [lia|]. simpl negb.
    assert ((off + 1) mod u64_modulus = off + 1) as Hnext
        by (apply (u64_next off n); lia).
    destruct rest as [|e rest].
    + assert (at_entry vec {| ptr_ := length pre; ptr_end_ := length vec;
                              i_ := off |} = None) as Hat.
      { unfold at_entry. simpl. rewrite Hv, app_nil_r.
        destruct (decide (length pre = length pre)); [reflexivity|congruence]. }
      unfold increment, deref. rewrite Hat. simpl ptr_. simpl ptr_end_.
      simpl i_. rewrite Hnext.
      rewrite (IH (off + 1) pre [] vec fuel last); try assumption; try lia.
      * reflexivity.
      * constructor.
    + apply offsets_cons in Hs as [Htail Hs].
      apply Forall_cons in Hge as [Hge_e Hge].
      assert (vec !! length pre = Some e) as Hlook
          by (rewrite Hv; apply list_lookup_middle; reflexivity).
      assert (length pre <> length vec) as Hlen.
      { rewrite Hv, length_app. simpl. lia. }
      destruct (decide (off = offset e)) as [Hoff|Hoff].
      * assert (at_entry vec {| ptr_ := length pre; ptr_end_ := length vec;
                                i_ := off |} = Some e) as Hat.
        { unfold at_entry. simpl.
          destruct (decide (length pre = length vec)); [contradiction|].
          rewrite Hlook.
          destruct (decide (off = offset e)); [reflexivity|contradiction]. }
        unfold increment, deref. rewrite Hat. simpl ptr_. simpl ptr_end_.
        simpl i_. rewrite Hnext.
        replace (S (length pre)) with (length (pre ++ [e]))
          by (rewrite length_app; simpl; lia).
        rewrite (IH (off + 1) (pre ++ [e]) rest vec fuel last);
          try assumption; try lia.
        -- rewrite map_cons. f_equal. f_equal.
           ++ rewrite Hoff, dense_status_cons_eq. reflexivity.
           ++ apply map_ext_in. intros i Hi. apply dense_offsets_ge in Hi.
              symmetry. apply dense_status_cons_ne. lia.
        -- rewrite Hv, <- app_assoc. reflexivity.
        -- eapply Forall_impl; [exact Htail|]. simpl. intros; lia.
      * assert (at_entry vec {| ptr_ := length pre; ptr_end_ := length vec;
                                i_ := off |} = None) as Hat.
        { unfold at_entry. simpl.
          destruct (decide (length pre = length vec)); [contradiction|].
          rewrite Hlook.
          destruct (decide (off = offset e)); [contradiction|reflexivity]. }
        unfold increment, deref. rewrite Hat. simpl ptr_. simpl ptr_end_.
        simpl i_. rewrite Hnext.
        rewrite (IH (off + 1) pre (e :: rest) vec fuel last);
          try assumption; try lia.
        -- rewrite map_cons. f_equal. f_equal. symmetry.
           apply dense_status_absent.
           constructor; [lia|].
           eapply Forall_impl; [exact Htail|]. simpl. intros; lia.
        -- apply offsets_cons. auto.
        -- constructor; [lia|].
           eapply Forall_impl; [exact Htail|]. simpl. intros; lia.
Qed.

Lemma dense_offsets_indices n : dense_offsets 0 (N.to_nat n) = indices n.
Proof. unfold dense_offsets, indices. apply map_ext. intros k. lia. Qed.

Lemma dense_view_ascending m fuel :
  ascending (map offset (non_zero_haplotypes_ m)) ->
  haplotype_count m < u64_modulus ->
  (N.to_nat (haplotype_count m) <= fuel)%nat ->
  dense_view fuel m
  = Some (map (dense_status (non_zero_haplotypes_ m))
              (indices (haplotype_count m))).
Proof.
  intros Hs Hb Hf. unfold dense_view, begin_, end_.
  rewrite <- dense_offsets_indices.
  apply (collect_ascending (N.to_nat (haplotype_count m)) 0 []
           (non_zero_haplotypes_ m) (non_zero_haplotypes_ m) fuel).
  - reflexivity.
  - assumption.
  - apply Forall_forall. intros e _. lia.
  - unfold haplotype_count. simpl. lia.
  - exact Hb.
  - assumption.
Qed.

(** X13.  For a marker whose entries are in strictly ascending offset
    order, dense iteration reads, at every dense offset below
    [haplotype_count()], [is_missing] where an entry with status
    [is_missing] is stored, [has_alt] where any other entry is stored,
    and [has_ref] where none is; entries at offsets from
    [haplotype_count()] on are never read. *)
Theorem dense_view_reads m fuel :
  ascending (map offset (non_zero_haplotypes_ m)) ->
  haplotype_count m < u64_modulus ->
  (N.to_nat (haplotype_count m) <= fuel)%nat ->
  dense_view fuel m
  = Some (map (dense_status (non_zero_haplotypes_ m))
              (indices (haplotype_count m)))
  /\ forall i, i < haplotype_count m ->
       (dense_status (non_zero_haplotypes_ m) i = has_ref
        <-> Forall (fun e => offset e <> i) (non_zero_haplotypes_ m)).
Proof.
  intros Hs Hb Hf. split; [apply dense_view_ascending; assumption|].
  intros i _. split.
  - intros Href. unfold dense_status in Href.
    destruct (list_find (fun e => offset e = i) (non_zero_haplotypes_ m))
      as [[p e]|] eqn:Hfind.
    + destruct (decide (status e = is_missing)); discriminate.
    + eapply list_find_None in Hfind. exact Hfind.
  - apply dense_status_absent.
Qed.

(** ** The two constructors together *)

Lemma dense_loop_cons (x : allele_status) (gt : list allele_status) off :
  off + N.of_nat (S (length gt)) < u64_modulus ->
  dense_loop (x :: gt) off []
  = if decide (x = has_ref) then dense_loop gt (off + 1) []
    else mk_sva off x :: dense_loop gt (off + 1) [].
Proof.
  intros Hb. simpl. rewrite (u64_next off (length gt) Hb).
  destruct (decide (x = has_ref)); [reflexivity|].
  rewrite dense_loop_acc. reflexivity.
Qed.

Lemma dense_loop_sorted (gt : list allele_status) : forall off,
  off + N.of_nat (length gt) < u64_modulus ->
  ascending (map offset (dense_loop gt off []))
  /\ (length (dense_loop gt off []) <= length gt)%nat.
Proof.
  induction gt as [|x gt IH]; intros off Hb.
  - simpl. split; [constructor|lia].
  - simpl length in Hb. rewrite (dense_loop_cons x gt off Hb).
    assert (off + 1 + N.of_nat (length gt) < u64_modulus) as Hb' by lia.
    destruct (IH (off + 1) Hb') as [Hs Hl].
    destruct (decide (x = has_ref)).
    + split; [assumption|]. simpl. lia.
    + split; [|simpl; lia].
      apply offsets_cons. split; [|assumption].
      apply Forall_forall. intros e He. simpl.
      apply (dense_loop_entries gt (off + 1) e Hb') in He
        as (n' & _ & -> & _). lia.
Qed.

(** X14.  Every marker the dense constructor builds (from calls whose
    number a [std::uint64_t] holds) is well formed: its entries are in
    strictly ascending offset order, at offsets below the haplotype
    count, never with status [has_ref], and no more than there are
    haplotypes.  The sparse constructor accepts these entries with that
    haplotype count and rebuilds the same marker. *)
Theorem marker_dense_well_formed position ref alt (s : list allele_status) :
  N.of_nat (length s) < u64_modulus ->
  let m := marker_dense position ref alt s in
  ascending (map offset (non_zero_haplotypes_ m))
  /\ Forall (fun e => offset e < haplotype_count m
                      /\ status e <> has_ref) (non_zero_haplotypes_ m)
  /\ N.of_nat (length (non_zero_haplotypes_ m)) <= haplotype_count m
  /\ marker_sparse position ref alt (non_zero_haplotypes_ m)
                   (haplotype_count m) = inr m.
Proof.
  intros Hb m.
  assert (haplotype_count m = N.of_nat (length s)) as Hcount.
  { subst m. unfold haplotype_count, marker_dense. simpl.
    apply N.mod_small. assumption. }
  assert (0 + N.of_nat (length s) < u64_modulus) as Hb0 by lia.
  destruct (dense_loop_sorted s 0 Hb0) as [Hs Hl].
  assert (Forall (fun e => offset e < haplotype_count m
                           /\ status e <> has_ref)
                 (non_zero_haplotypes_ m)) as Hall.
  { apply Forall_forall. intros e He. subst m. simpl in He.
    apply (dense_loop_entries s 0 e Hb0) in He as (n & Hn & Ho & Hst).
    apply lookup_lt_Some in Hn. rewrite Hcount. split; [lia|assumption]. }
  assert (N.of_nat (length (non_zero_haplotypes_ m)) <= haplotype_count m)
    as Hlen.
  { rewrite Hcount. subst m. simpl. lia. }
  split; [exact Hs|]. split; [exact Hall|]. split; [exact Hlen|].
  unfold marker_sparse. rewrite sparse_loop_copies.
  - rewrite app_nil_l. cbv beta iota.
    apply N.ltb_ge in Hlen. rewrite Hlen. subst m. reflexivity.
  - eapply Forall_impl; [exact Hall|]. simpl. tauto.
Qed.

(** ** From sparse to dense and back *)

Lemma lookup_map {A B} (f : A -> B) (l : list A) (n : nat) :
  map f l !! n = option_map f (l !! n).
Proof.
  revert n. induction l as [|x l IH]; intros [|n]; simpl; auto.
Qed.

(** In a list ordered by strictly ascending offset, an offset determines
    the entry. *)
Lemma same_offset_same_entry nz (e e' : sparse_vector_allele) :
  ascending (map offset nz) -> e ∈ nz -> e' ∈ nz ->
  offset e = offset e' -> e = e'.
Proof.
  intros Hs He He' Hoff.
  apply list_elem_of_lookup_1 in He as [p Hp].
  apply list_elem_of_lookup_1 in He' as [q Hq].
  assert (map offset nz !! p = Some (offset e)) as Hp'
      by (rewrite lookup_map, Hp; reflexivity).
  assert (map offset nz !! q = Some (offset e')) as Hq'
      by (rewrite lookup_map, Hq; reflexivity).
  destruct (Nat.lt_trichotomy p q) as [Hlt|[->|Hlt]].
  - pose proof (ascending_lookup_lt _ _ _ _ _ Hs Hp' Hq' Hlt). lia.
  - congruence.
  - pose proof (ascending_lookup_lt _ _ _ _ _ Hs Hq' Hp' Hlt). lia.
Qed.

(** Two lists of entries in strictly ascending offset order with the same
    members are equal. *)
Lemma ascending_entries_ext nz1 : forall nz2,
  ascending (map offset nz1) -> ascending (map offset nz2) ->
  (forall e, e ∈ nz1 <-> e ∈ nz2) -> nz1 = nz2.
Proof.
  induction nz1 as [|x nz1 IH]; intros nz2 H1 H2 Hext.
  - destruct nz2 as [|y nz2]; [reflexivity|].
    exfalso. assert (y ∈ []) as Hy by (apply Hext; left).
    inversion Hy.
  - destruct nz2 as [|y nz2].
    { exfalso. assert (x ∈ []) as Hx by (apply Hext; left).
      inversion Hx. }
    apply offsets_cons in H1 as [Ha1 H1].
    apply offsets_cons in H2 as [Ha2 H2].
    rewrite Forall_forall in Ha1, Ha2.
    assert (x = y) as ->.
    { assert (x ∈ y :: nz2) as Hx by (apply Hext; left).
      assert (y ∈ x :: nz1) as Hy by (apply Hext; left).
      apply elem_of_cons in Hx as [?|Hx]; [assumption|].
      apply elem_of_cons in Hy as [?|Hy]; [congruence|].
      specialize (Ha1 _ Hy). specialize (Ha2 _ Hx). lia. }
    f_equal. apply IH; try assumption.
    intros z. split; intros Hz.
    + assert (z ∈ y :: nz2) as Hz' by (apply Hext; right; assumption).
      apply elem_of_cons in Hz' as [->|?]; [|assumption].
      specialize (Ha1 _ Hz). lia.
    + assert (z ∈ y :: nz1) as Hz' by (apply Hext; right; assumption).
      apply elem_of_cons in Hz' as [->|?]; [|assumption].
      specialize (Ha2 _ Hz). lia.
Qed.

Lemma dense_status_stored nz (e : sparse_vector_allele) :
  ascending (map offset nz) -> e ∈ nz -> status e <> has_ref ->
  dense_status nz (offset e) = status e.
Proof.
  intros Hs He Hst. unfold dense_status.
  destruct (list_find (fun e' => offset e' = offset e) nz)
    as [[p e']|] eqn:Hfind.
  - apply list_find_Some in Hfind as (Hp & Hoff & _).
    assert (e' = e) as ->.
    { eapply same_offset_same_entry; eauto.
      eapply list_elem_of_lookup_2. exact Hp. }
    apply status_not_ref. assumption.
  - exfalso. eapply list_find_None in Hfind.
    rewrite Forall_forall in Hfind. eapply Hfind; eauto.
Qed.

Lemma dense_status_found nz i (st : allele_status) :
  Forall (fun e => status e <> has_ref) nz ->
  dense_status nz i = st -> st <> has_ref ->
  mk_sva i st ∈ nz.
Proof.
  intros Hwf Heq Hst. unfold dense_status in Heq.
  destruct (list_find (fun e' => offset e' = i) nz)
    as [[p e']|] eqn:Hfind; [|congruence].
  apply list_find_Some in Hfind as (Hp & Hoff & _).
  pose proof (list_elem_of_lookup_2 _ _ _ Hp) as Hin.
  rewrite Forall_forall in Hwf. specialize (Hwf _ Hin).
  rewrite (status_not_ref _ Hwf) in Heq.
  destruct e' as [o' s']. simpl in *. subst. assumption.
Qed.

(** X15.  A well-formed marker survives the trip through its dense view:
    when the entries are in strictly ascending offset order, lie below
    the haplotype count and never have status [has_ref], dense iteration
    yields a sequence from which the dense constructor rebuilds the very
    same marker. *)
Theorem sparse_dense_round_trip m fuel :
  ascending (map offset (non_zero_haplotypes_ m)) ->
  Forall (fun e => offset e < haplotype_count m /\ status e <> has_ref)
         (non_zero_haplotypes_ m) ->
  haplotype_count m < u64_modulus ->
  (N.to_nat (haplotype_count m) <= fuel)%nat ->
  exists view,
    dense_view fuel m = Some view
    /\ marker_dense (pos m) (ref m) (alt m) view = m.
Proof.
  intros Hs Hwf Hb Hf.
  set (nz := non_zero_haplotypes_ m) in *.
  set (view := map (dense_status nz) (indices (haplotype_count m))).
  exists view. split; [apply dense_view_ascending; assumption|].
  assert (length view = N.to_nat (haplotype_count m)) as Hlen.
  { subst view. rewrite length_map. unfold indices.
    rewrite length_map, length_seq. reflexivity. }
  assert (0 + N.of_nat (length view) < u64_modulus) as Hb0
      by (rewrite Hlen; lia).
  assert (forall n, (n < N.to_nat (haplotype_count m))%nat ->
                    view !! n = Some (dense_status nz (N.of_nat n))) as Hview.
  { intros n Hn. subst view. rewrite lookup_map. unfold indices.
    rewrite lookup_map. rewrite lookup_seq_lt by assumption. reflexivity. }
  assert (dense_loop view 0 [] = nz) as Hnz.
  { apply ascending_entries_ext.
    - apply (dense_loop_sorted view 0 Hb0).
    - assumption.
    - intros e. rewrite (dense_loop_entries view 0 e Hb0).
      rewrite Forall_forall in Hwf. split.
      + intros (n & Hn & Ho & Hst).
        pose proof (lookup_lt_Some _ _ _ Hn) as Hlt. rewrite Hlen in Hlt.
        rewrite (Hview n Hlt) in Hn. injection Hn as Hn.
        assert (mk_sva (N.of_nat n) (status e) ∈ nz) as Hin.
        { apply dense_status_found; try assumption.
          apply Forall_forall. intros e' He'. apply (Hwf e' He'). }
        destruct e as [eo es]. simpl in *.
        replace eo with (N.of_nat n) by lia. assumption.
      + intros He. destruct (Hwf e He) as [Hlt Hst].
        exists (N.to_nat (offset e)). split; [|split; [lia|assumption]].
        rewrite Hview by lia. rewrite N2Nat.id.
        f_equal. apply dense_status_stored; assumption. }
  unfold marker_dense. rewrite Hnz, Hlen, N2Nat.id.
  rewrite N.mod_small by assumption.
  subst nz. destruct m. reflexivity.
Qed.

End MarkerMoreFacts.


(** * More on [cmf::writer] *)

Section WriterMoreFacts.

Import Cmf.

Variable varint_encode : N -> list byte.
Variable marker_write : Stream.ostream -> marker -> Stream.ostream.

Implicit Types (os : Stream.ostream) (w : writer) (m : marker).

Lemma write_not_good os data :
  Stream.good os = false -> Stream.write os data = os.
Proof. intros Hg. unfold Stream.write. rewrite Hg. reflexivity. Qed.

(** The loop over the sample names on a stream that is not good: the
    length prefixes get through, the names do not. *)
Lemma write_samples_not_good samples : forall os,
  Stream.good os = false ->
  Stream.good (fold_left (write_sample varint_encode) samples os) = false
  /\ Stream.sink (fold_left (write_sample varint_encode) samples os)
     = Stream.sink os
       ++ concat (map (fun name => varint_encode (string_size name)) samples).
Proof.
  induction samples as [|name rest IH]; intros os Hg; simpl.
  - rewrite app_nil_r. auto.
  - assert (write_sample varint_encode os name
            = Stream.put os (varint_encode (string_size name))) as Hstep.
    { unfold write_sample. apply write_not_good. exact Hg. }
    rewrite Hstep. destruct (IH (Stream.put os (varint_encode (string_size name))) Hg)
      as [Hgood Hsink].
    split; [assumption|]. rewrite Hsink. simpl.
    rewrite <- app_assoc. reflexivity.
Qed.

(** X16.  A writer constructed over a stream that is not good still sends
    every varint and the chromosome bytes to the sink, through the stream
    buffer iterator, but neither the eight magic and version bytes nor any
    sample name, which go through [ostream::write]; the stream stays not
    good. *)
Theorem writer_new_on_failed_stream os chromosome ploidy
        (samples : list string) :
  Stream.good os = false ->
  N.of_nat (length samples) < u64_modulus ->
  let w := writer_new varint_encode os chromosome ploidy samples in
  output w
  = Stream.sink os
    ++ varint_encode (string_size chromosome)
    ++ list_byte_of_string chromosome
    ++ varint_encode ploidy
    ++ varint_encode (N.of_nat (length samples))
    ++ concat (map (fun name => varint_encode (string_size name)) samples)
    ++ varint_encode 0
  /\ Stream.good (output_stream_ w) = false.
Proof.
  intros Hg Hb w. subst w. unfold writer_new, output. simpl.
  rewrite (N.mod_small _ _ Hb). rewrite (write_not_good os _ Hg).
  match goal with
  | |- context [fold_left _ samples ?o] =>
      destruct (write_samples_not_good samples o) as [Hgood Hsink];
        [exact Hg|]
  end.
  split; [|exact Hgood].
  rewrite Hsink. simpl. rewrite <- !app_assoc. reflexivity.
Qed.

Lemma op_shl_keeps_counts w m :
  sample_size_ (op_shl marker_write w m) = sample_size_ w
  /\ ploidy_level_ (op_shl marker_write w m) = ploidy_level_ w.
Proof.
  unfold op_shl. destruct (Stream.good _); [|auto].
  destruct (decide _); auto.
Qed.

Lemma op_shl_many_keeps_counts (ms : list marker) : forall w,
  sample_size_ (fold_left (op_shl marker_write) ms w) = sample_size_ w
  /\ ploidy_level_ (fold_left (op_shl marker_write) ms w) = ploidy_level_ w.
Proof.
  induction ms as [|m rest IH]; intros w; simpl; [auto|].
  destruct (IH (op_shl marker_write w m)) as [-> ->].
  apply op_shl_keeps_counts.
Qed.

(** X17.  In a sequence of writes, the first marker whose haplotype count
    is not the writer's [sample count * ploidy] (as the code computes it,
    modulo [2^64]) ends the output: the sink holds what the markers before
    it produced, nothing of that marker or of any later one, and the
    stream is not good afterwards. *)
Theorem op_shl_stops_at_mismatch w (before after : list marker) m :
  haplotype_count m
  <> (sample_size_ w * ploidy_level_ w) mod u64_modulus ->
  output (fold_left (op_shl marker_write) (before ++ m :: after) w)
  = output (fold_left (op_shl marker_write) before w)
  /\ Stream.good
       (output_stream_
          (fold_left (op_shl marker_write) (before ++ m :: after) w))
     = false.
Proof.
  intros Hne. rewrite fold_left_app. simpl.
  destruct (op_shl_many_keeps_counts before w) as [Hss Hpl].
  set (w1 := fold_left (op_shl marker_write) before w) in *.
  assert (output (op_shl marker_write w1 m) = output w1
          /\ Stream.good (output_stream_ (op_shl marker_write w1 m)) = false)
    as [Hout Hbad].
  { unfold op_shl. destruct (Stream.good (output_stream_ w1)) eqn:Hg.
    - rewrite Hss, Hpl.
      destruct (decide _) as [Heq|_]; [contradiction|].
      split; [reflexivity|]. apply failbit_not_good. reflexivity.
    - auto. }
  rewrite (op_shl_many_not_good marker_write after _ Hbad). auto.
Qed.

End WriterMoreFacts.

(** * More on the allele frequency *)

Section AlleleFrequencyMoreFacts.

Import Cvcf.

Implicit Types (nz : list sparse_allele) (m : marker).

(** The two counters after the loop, for any entries: wrap-around
    included. *)
Lemma count_loop_closed nz : forall allele_cnt total,
  allele_cnt < u64_modulus -> total < u64_modulus ->
  count_loop nz allele_cnt total
  = ((allele_cnt
      + N.of_nat (length (filter (fun e => is_allele e = true) nz)))
       mod u64_modulus,
     (total
      + N.of_nat (length (filter (fun e => is_allele e = false) nz))
        * (u64_modulus - 1))
       mod u64_modulus).
Proof.
  induction nz as [|e rest IH]; intros a t Ha Ht.
  - simpl. rewrite N.add_0_r, N.mul_0_l, N.add_0_r.
    rewrite !N.mod_small by assumption. reflexivity.
  - simpl count_loop. destruct (is_allele e) eqn:He.
    + rewrite filter_cons_True by congruence.
      rewrite filter_cons_False by congruence.
      rewrite IH by (try apply N.mod_lt; try assumption; discriminate).
      f_equal. rewrite N.Div0.add_mod_idemp_l. f_equal. simpl length. lia.
    + rewrite filter_cons_False by congruence.
      rewrite filter_cons_True by congruence.
      rewrite IH by (try apply N.mod_lt; try assumption; discriminate).
      f_equal. rewrite N.Div0.add_mod_idemp_l. f_equal. simpl length. lia.
Qed.

(** X18.  The allele frequency depends only on the haplotype count and on
    how many stored entries are alternate alleles and how many are
    missing calls: neither the offsets of the entries nor their order
    matter. *)
Theorem allele_frequency_counts_only m m' :
  haplotype_count m = haplotype_count m' ->
  alt_count m = alt_count m' ->
  missing_count m = missing_count m' ->
  calculate_allele_frequency m = calculate_allele_frequency m'.
Proof.
  intros Hh Ha Hm. unfold calculate_allele_frequency.
  assert (forall x, haplotype_count x < u64_modulus) as Hlt.
  { intros x. unfold haplotype_count. apply N.mod_lt. discriminate. }
  rewrite !count_loop_closed by (try apply Hlt; reflexivity).
  unfold alt_count, missing_count in *. rewrite Hh, Ha, Hm. reflexivity.
Qed.

End AlleleFrequencyMoreFacts.

(** * The block-wise input iterator of the VCF reader *)

Section VcfIteratorFacts.

Import Vcf.

Variables reader block : Type.
Variable marker_count : block -> N.
Variable read_next_block : reader -> block -> bool * reader * block.

(** X19.  Within a block the iterator is advanced once too often: after a
    block was loaded (index 0), [k] increments with [k <= marker_count()]
    only move the index to [k], so the index reaches [marker_count()], one
    past the block's last marker, while the iterator still differs from
    the end iterator; only the next increment reads another block and
    returns to index 0. *)
Theorem advance_within_block (it : input_iterator reader block) (k : nat) :
  i_ it = 0 ->
  marker_count (buffer_ it) < u32_modulus ->
  N.of_nat k <= marker_count (buffer_ it) ->
  advance marker_count read_next_block k it
  = Some {| file_reader_ := file_reader_ it;
            buffer_ := buffer_ it;
            i_ := N.of_nat k |}
  /\ (N.of_nat k = marker_count (buffer_ it) ->
      forall r, file_reader_ it = Some r ->
        advance marker_count read_next_block (S k) it
        = Some {| file_reader_ :=
                    if fst (fst (read_next_block r (buffer_ it)))
                    then Some (snd (fst (read_next_block r (buffer_ it))))
                    else None;
                  buffer_ := snd (read_next_block r (buffer_ it));
                  i_ := 0 |}).
Proof.
  destruct it as [fr bf ix]. simpl. intros Hzero Hb. subst ix.
  assert (forall n, N.of_nat n <= marker_count bf ->
            advance marker_count read_next_block n
              {| file_reader_ := fr; buffer_ := bf; i_ := 0 |}
            = Some {| file_reader_ := fr; buffer_ := bf;
                      i_ := N.of_nat n |}) as Hadv.
  { induction n as [|n IH]; intros Hn.
    - reflexivity.
    - simpl. rewrite IH by lia. unfold Vcf.increment. simpl.
      destruct (N.ltb_spec (N.of_nat n) (marker_count bf)) as [_|]; [|lia].
      rewrite N.mod_small by (unfold u32_modulus in *; lia).
      do 2 f_equal. lia. }
  intros Hk. split; [apply Hadv; assumption|].
  intros Hlast r Hr. simpl. rewrite Hadv by assumption.
  unfold Vcf.increment. simpl.
  destruct (N.ltb_spec (N.of_nat k) (marker_count bf)) as [|_]; [lia|].
  rewrite Hr. destruct (read_next_block r bf) as [[ok r'] b'].
  reflexivity.
Qed.

End VcfIteratorFacts.


(** * The further properties on sample data *)

Lemma dense_view_length_witness :
  exists l, Cmf.dense_view 3 Sample.marker_unordered = Some l
            /\ length l = 3%nat.
Proof.
  assert (Cmf.haplotype_count Sample.marker_unordered < u64_modulus) as Hb
    by reflexivity.
  assert (N.to_nat (Cmf.haplotype_count Sample.marker_unordered) <= 3)%nat
    as Hf by (simpl; lia).
  exact (dense_view_length Sample.marker_unordered 3 Hb Hf).
Defined.

Lemma dense_view_reads_witness :
  Cmf.dense_view 8 Sample.marker_s4
  = Some [Cmf.has_alt; Cmf.has_ref; Cmf.has_ref; Cmf.is_missing;
          Cmf.has_ref; Cmf.has_ref; Cmf.has_ref; Cmf.has_alt].
Proof.
  assert (ascending (map Cmf.offset
                         (Cmf.non_zero_haplotypes_ Sample.marker_s4))) as Hs.
  { unfold ascending. simpl. repeat constructor. }
  assert (Cmf.haplotype_count Sample.marker_s4 < u64_modulus) as Hb
    by reflexivity.
  assert (N.to_nat (Cmf.haplotype_count Sample.marker_s4) <= 8)%nat as Hf
    by (simpl; lia).
  destruct (dense_view_reads Sample.marker_s4 8 Hs Hb Hf) as [Heq _].
  rewrite Heq. reflexivity.
Defined.

Lemma marker_dense_well_formed_witness :
  Cmf.marker_sparse 12345 "A" "G"
    (Cmf.non_zero_haplotypes_
       (Cmf.marker_dense 12345 "A" "G" Sample.calls_s3))
    (Cmf.haplotype_count (Cmf.marker_dense 12345 "A" "G" Sample.calls_s3))
  = inr (Cmf.marker_dense 12345 "A" "G" Sample.calls_s3).
Proof.
  assert (N.of_nat (length Sample.calls_s3) < u64_modulus) as Hb
    by reflexivity.
  destruct (marker_dense_well_formed 12345 "A" "G" Sample.calls_s3 Hb)
    as (_ & _ & _ & Heq).
  exact Heq.
Defined.

Lemma sparse_dense_round_trip_witness :
  exists view,
    Cmf.dense_view 8 Sample.marker_s4 = Some view
    /\ Cmf.marker_dense 12345 "A" "G" view = Sample.marker_s4.
Proof.
  assert (ascending (map Cmf.offset
                         (Cmf.non_zero_haplotypes_ Sample.marker_s4))) as Hs.
  { unfold ascending. simpl. repeat constructor. }
  assert (Forall (fun e => Cmf.offset e < Cmf.haplotype_count Sample.marker_s4
                           /\ Cmf.status e <> Cmf.has_ref)
                 (Cmf.non_zero_haplotypes_ Sample.marker_s4)) as Hwf.
  { simpl. repeat constructor; simpl; discriminate. }
  assert (Cmf.haplotype_count Sample.marker_s4 < u64_modulus) as Hb
    by reflexivity.
  assert (N.to_nat (Cmf.haplotype_count Sample.marker_s4) <= 8)%nat as Hf
    by (simpl; lia).
  exact (sparse_dense_round_trip Sample.marker_s4 8 Hs Hwf Hb Hf).
Defined.

Lemma writer_new_on_failed_stream_witness :
  Cmf.output
    (Cmf.writer_new Varint.varint_encode Sample.failed_stream "20" 2
                    ["s1"; "s2"]%string)
  = [Byte.x02; Byte.x32; Byte.x30; Byte.x02; Byte.x02; Byte.x02; Byte.x02;
     Byte.x00].
Proof.
  assert (Stream.good Sample.failed_stream = false) as Hg by reflexivity.
  assert (N.of_nat (length ["s1"; "s2"]%string) < u64_modulus) as Hb
    by reflexivity.
  destruct (writer_new_on_failed_stream Varint.varint_encode
              Sample.failed_stream "20" 2 ["s1"; "s2"]%string Hg Hb)
    as [Hout _].
  rewrite Hout. reflexivity.
Defined.

Lemma op_shl_stops_at_mismatch_witness :
  Cmf.output
    (fold_left (Cmf.op_shl Sample.write_position_only)
       ([Sample.marker_four] ++ Sample.marker_three :: [Sample.marker_four])
       Sample.writer_s6)
  = Cmf.output Sample.writer_s6 ++ [Byte.x02].
Proof.
  assert (Cmf.haplotype_count Sample.marker_three
          <> (Cmf.sample_size_ Sample.writer_s6
              * Cmf.ploidy_level_ Sample.writer_s6) mod u64_modulus) as Hne
    by discriminate.
  destruct (op_shl_stops_at_mismatch Sample.write_position_only
              Sample.writer_s6 [Sample.marker_four] [Sample.marker_four]
              Sample.marker_three Hne) as [Hout _].
  rewrite Hout. reflexivity.
Defined.

Lemma allele_frequency_counts_only_witness :
  Cvcf.calculate_allele_frequency Sample.cvcf_s3
  = Cvcf.calculate_allele_frequency Sample.cvcf_s3_moved.
Proof.
  exact (allele_frequency_counts_only Sample.cvcf_s3 Sample.cvcf_s3_moved
           eq_refl eq_refl eq_refl).
Defined.

Lemma advance_within_block_witness :
  Vcf.advance (fun b : N => b) Sample.no_more_blocks 2
    (Vcf.input_iterator_new Sample.no_more_blocks tt 2)
  = Some {| Vcf.file_reader_ := Some tt; Vcf.buffer_ := 2; Vcf.i_ := 2 |}
  /\ Vcf.not_at_end
       {| Vcf.file_reader_ := Some tt; Vcf.buffer_ := 2; Vcf.i_ := 2 |}
     = true.
Proof.
  assert (2 < Vcf.u32_modulus) as Hb by reflexivity.
  assert (N.of_nat 2 <= 2) as Hk by (simpl; lia).
  destruct (advance_within_block unit N (fun b : N => b)
              Sample.no_more_blocks
              (Vcf.input_iterator_new Sample.no_more_blocks tt 2) 2%nat
              eq_refl Hb Hk) as [Hadv _].
  split; [exact Hadv | reflexivity].
Defined.
